(** * Ant System for the symmetric TSP: a shallow embedding

    The development follows the three modules of the program:
    [environment.py] (distance table and pheromone map), [ant.py] (tour
    construction) and [ant-colony.py] (the colony loop).

    Conventions of the embedding.
    - City identifiers are Python ints: [Z].  A location held by an ant is
      a [location], [None] being Python's [None] (the placeholder an ant
      is created with).
    - Python floats are idealised as exact rationals [Q]; [math.sqrt] and
      the float power [**] are library functions, taken as parameters.
    - A Python number that is either an int or [float('inf')] (a distance
      lookup, a travelled distance) is a [num].
    - Dictionaries are [gmap]s, a [set] is a [gset]; the one set whose
      iteration order matters ([unvisited] in the nearest-neighbour loop)
      is a duplicate-free list in iteration order.
    - Exceptions are explicit: a computation returns an [outcome]. *)

From Stdlib Require Import ZArith QArith Qround Lqa Lia.
From stdpp Require Import base option list gmap.

Local Open Scope Z_scope.

(** ** Exceptions and outcomes *)

Inductive exn : Set :=
| KeyError
| IndexError
| ValueError
| ZeroDivisionError.

Inductive outcome (A : Type) : Type :=
| Ok (a : A)
| Raise (e : exn)
| OutOfFuel.

Arguments Ok {A} a.
Arguments Raise {A} e.
Arguments OutOfFuel {A}.

Definition obind {A B} (m : outcome A) (k : A -> outcome B) : outcome B :=
  match m with
  | Ok a => k a
  | Raise e => Raise e
  | OutOfFuel => OutOfFuel
  end.

Notation "'do' x <- m ; k" := (obind m (fun x => k))
  (at level 10, x name, m at level 100, k at level 200).

(** [d[k]] on a dictionary: [KeyError] when the key is absent. *)
Definition getitem {K V} `{Countable K} (d : gmap K V) (k : K) : outcome V :=
  match d !! k with
  | Some v => Ok v
  | None => Raise KeyError
  end.

(** [for x in l: s = body x s], stopping at the first exception. *)
Fixpoint for_each {A S} (l : list A) (body : A -> S -> outcome S) (s : S)
  : outcome S :=
  match l with
  | [] => Ok s
  | x :: l' => do s' <- body x s; for_each l' body s'
  end.

(** ** Numbers that are an int or [float('inf')] *)

Inductive num : Set :=
| Fin (z : Z)
| Inf.

Definition num_add (a b : num) : num :=
  match a, b with
  | Fin x, Fin y => Fin (x + y)
  | _, _ => Inf
  end.

(** [a < b] on such numbers. *)
Definition num_ltb (a b : num) : bool :=
  match a, b with
  | Fin x, Fin y => x <? y
  | Fin _, Inf => true
  | Inf, _ => false
  end.

(** The value of [1.0 / x] where it is defined: [1.0 / inf = 0.0]. *)
Definition recip (x : num) : Q :=
  match x with
  | Fin z => (1 / inject_Z z)%Q
  | Inf => 0%Q
  end.

(** [1.0 / x]: [ZeroDivisionError] on the int 0. *)
Definition one_over (x : num) : outcome Q :=
  match x with
  | Fin 0 => Raise ZeroDivisionError
  | _ => Ok (recip x)
  end.

(** ** Locations *)

(** What an ant holds as a location: a city, or [None]. *)
Abbreviation location := (option Z).

(** ** The problem instance handed over by the loader *)

Record problem : Type := {
  get_nodes : list Z;
  node_coords : Z -> Q * Q
}.

(** ** environment.py *)

Record Environment : Type := {
  rho : Q;
  nodes : list Z;
  coordinates : gmap Z (Q * Q);
  distances : gmap (Z * Z) Z;
  pheromone_map : gmap (Z * Z) Q
}.

(** Python's [round(x)] on a float: nearest integer, ties to even. *)
Definition py_round (r : Q) : Z :=
  let f := Qfloor r in
  match (r - inject_Z f ?= 1 # 2)%Q with
  | Lt => f
  | Gt => f + 1
  | Eq => if Z.even f then f else f + 1
  end.

(** [tij = int(round(rij)); if tij < rij: tij += 1]. *)
Definition att_round (rij : Q) : Z :=
  let tij := py_round rij in
  if Qlt_le_dec (inject_Z tij) rij then tij + 1 else tij.

Section Env.

(** [math.sqrt] on floats. *)
Variable fsqrt : Q -> Q.

(** The real-valued pseudo-Euclidean value [rij] of two coordinates. *)
Definition att_r (c1 c2 : Q * Q) : Q :=
  let '(x1, y1) := c1 in
  let '(x2, y2) := c2 in
  let xd := (x1 - x2)%Q in
  let yd := (y1 - y2)%Q in
  fsqrt ((xd ^ 2 + yd ^ 2) / 10)%Q.

Definition att_distance (c1 c2 : Q * Q) : Z := att_round (att_r c1 c2).

(** [for node in self.nodes: self.coordinates[node] = problem.node_coords[node]] *)
Definition load_coordinates (p : problem) (ns : list Z) : gmap Z (Q * Q) :=
  foldl (fun d node => <[node := node_coords p node]> d) ∅ ns.

(** The double loop of [Environment.__init__] filling [self.distances]. *)
Definition compute_distances (ns : list Z) (coords : gmap Z (Q * Q))
  : outcome (gmap (Z * Z) Z) :=
  for_each ns (fun i d =>
    for_each ns (fun j d =>
      if decide (i ≠ j) then
        do c1 <- getitem coords i;
        do c2 <- getitem coords j;
        Ok (<[(i, j) := att_distance c1 c2]> d)
      else Ok d) d) ∅.

(** [Environment.get_distance]: [self.distances.get((a, b), float('inf'))].
    A pair with [None] in it is not a key of the table. *)
Definition edge (a b : location) : option (Z * Z) :=
  match a, b with
  | Some x, Some y => Some (x, y)
  | _, _ => None
  end.

Definition get_distance (env : Environment) (from_node to_node : location) : num :=
  match edge from_node to_node ≫= (fun k => distances env !! k) with
  | Some t => Fin t
  | None => Inf
  end.

Definition get_possible_locations (env : Environment) : list Z := nodes env.
Definition get_pheromone_map (env : Environment) : gmap (Z * Z) Q := pheromone_map env.

(** *** Nearest-neighbour tour and initial trail *)

(** [min(l, key=key)]: the first element of [l] whose key is smallest. *)
Fixpoint min_from (key : Z -> num) (best : Z) (l : list Z) : Z :=
  match l with
  | [] => best
  | x :: l' => min_from key (if num_ltb (key x) (key best) then x else best) l'
  end.

Definition py_min (key : Z -> num) (l : list Z) : outcome Z :=
  match l with
  | [] => Raise ValueError
  | x :: l' => Ok (min_from key x l')
  end.

(** [s.remove(x)] on a set kept as a duplicate-free list in iteration
    order: the order of the remaining elements is unchanged. *)
Definition set_remove (x : Z) (s : list Z) : outcome (list Z) :=
  if decide (x ∈ s) then Ok (filter (fun y => y ≠ x) s) else Raise KeyError.

(** The order in which [set(l)] iterates: implementation-defined. *)
Variable set_iter : list Z -> list Z.

(** [self.distances.get((a, b), float('inf'))] *)
Definition distances_get (env : Environment) (a b : Z) : num :=
  match distances env !! (a, b) with
  | Some t => Fin t
  | None => Inf
  end.

(** The [while unvisited:] loop; every round removes one element. *)
Fixpoint nn_loop (fuel : nat) (env : Environment) (current_node : Z)
    (unvisited : list Z) (tour_length : Z) : outcome (Z * Z) :=
  match unvisited with
  | [] => Ok (current_node, tour_length)
  | _ :: _ =>
    match fuel with
    | O => OutOfFuel
    | S fuel' =>
      do next_node <- py_min (distances_get env current_node) unvisited;
      do d <- getitem (distances env) (current_node, next_node);
      do unvisited' <- set_remove next_node unvisited;
      nn_loop fuel' env next_node unvisited' (tour_length + d)
    end
  end.

(** The final double loop: every ordered pair of different nodes gets [v]. *)
Definition fill_pheromone (ns : list Z) (v : Q) (m : gmap (Z * Z) Q)
  : gmap (Z * Z) Q :=
  foldl (fun m i =>
    foldl (fun m j => if decide (i ≠ j) then <[(i, j) := v]> m else m) m ns) m ns.

Definition with_pheromone_map (env : Environment) (m : gmap (Z * Z) Q)
  : Environment :=
  {| rho := rho env; nodes := nodes env; coordinates := coordinates env;
     distances := distances env; pheromone_map := m |}.

(** The length of the nearest-neighbour tour computed by
    [initialize_pheromone_map], up to and including the closing edge. *)
Definition nn_tour_length (env : Environment) : outcome Z :=
  do start_node <- match nodes env with
                   | [] => Raise IndexError
                   | x :: _ => Ok x
                   end;
  do unvisited <- set_remove start_node (set_iter (nodes env));
  do r <- nn_loop (length unvisited) env start_node unvisited 0;
  let '(current_node, tour_length) := r in
  do d <- getitem (distances env) (current_node, start_node);
  Ok (tour_length + d).

Definition initialize_pheromone_map (env : Environment) : outcome Environment :=
  let n := Z.of_nat (length (nodes env)) in
  do tour_length <- nn_tour_length env;
  do initial_pheromone <- one_over (Fin (n * tour_length));
  Ok (with_pheromone_map env
        (fill_pheromone (nodes env) initial_pheromone (pheromone_map env))).

(** [Environment.__init__], on the instance the loader returns. *)
Definition Environment_init (rho0 : Q) (p : problem) : outcome Environment :=
  let ns := get_nodes p in
  let coords := load_coordinates p ns in
  do dist <- compute_distances ns coords;
  initialize_pheromone_map
    {| rho := rho0; nodes := ns; coordinates := coords;
       distances := dist; pheromone_map := ∅ |}.

End Env.

(** *** Pheromone update *)

(** An object mutated in place: the object as the call leaves it, and how
    the call ended. *)
Definition mutated (S : Type) : Type := (S * outcome unit)%type.

Definition mbind_in_place {S} (r : mutated S) (k : S -> mutated S) : mutated S :=
  match r with
  | (s, Ok _) => k s
  | _ => r
  end.

Fixpoint for_each_in_place {A S} (l : list A) (body : A -> S -> mutated S) (s : S)
  : mutated S :=
  match l with
  | [] => (s, Ok tt)
  | x :: l' => mbind_in_place (body x s) (for_each_in_place l' body)
  end.

(** [m[k] += d] *)
Definition add_pheromone (k : option (Z * Z)) (d : Q) (m : gmap (Z * Z) Q)
  : mutated (gmap (Z * Z) Q) :=
  match k ≫= (fun k => pair k <$> m !! k) with
  | Some (k, v) => (<[k := (v + d)%Q]> m, Ok tt)
  | None => (m, Raise KeyError)
  end.

(** The pairs [(tour[i], tour[(i + 1) % len(tour)])] for [i in range(len(tour))]. *)
Definition tour_steps (tour : list location) : list (location * location) :=
  omap (fun i =>
          a ← tour !! i;
          b ← tour !! ((i + 1) mod length tour)%nat;
          Some (a, b))
       (seq 0 (length tour)).

Definition deposit_step (delta_tau : Q) (step : location * location)
    (m : gmap (Z * Z) Q) : mutated (gmap (Z * Z) Q) :=
  let '(from_node, to_node) := step in
  mbind_in_place (add_pheromone (edge from_node to_node) delta_tau m)
                 (add_pheromone (edge to_node from_node) delta_tau).

Definition deposit_tour (tl : list location * num) (m : gmap (Z * Z) Q)
  : mutated (gmap (Z * Z) Q) :=
  let '(tour, tour_length) := tl in
  match one_over tour_length with
  | Ok delta_tau => for_each_in_place (tour_steps tour) (deposit_step delta_tau) m
  | Raise e => (m, Raise e)
  | OutOfFuel => (m, OutOfFuel)
  end.

Definition evaporate (r : Q) (m : gmap (Z * Z) Q) : gmap (Z * Z) Q :=
  (fun v => ((1 - r) * v)%Q) <$> m.

Definition update_pheromone_map (env : Environment)
    (ant_tours : list (list location)) (ant_tour_lengths : list num)
  : mutated Environment :=
  let m := evaporate (rho env) (pheromone_map env) in
  let '(m', r) := for_each_in_place (zip ant_tours ant_tour_lengths) deposit_tour m in
  (with_pheromone_map env m', r).

(** ** ant.py *)

(** The random source: [random.choice(seq)], [np.random.choice(a)] and
    [np.random.choice(a, p=p)], threading the generator state. *)
Record Sampler : Type := {
  rng : Type;
  random_choice : list Z -> rng -> outcome (Z * rng);
  np_random_choice : list Z -> rng -> outcome (Z * rng);
  np_random_choice_p : list Z -> list Q -> rng -> outcome (Z * rng)
}.

Definition Qsum (l : list Q) : Q := foldl Qplus 0%Q l.

(** What the three library calls guarantee: a draw is an element of the
    sequence; the uniform draws succeed on a non-empty sequence, the
    weighted one when [p] is a probability vector over it. *)
Record SamplerSpec (S : Sampler) : Prop := {
  random_choice_elem : forall l g x g',
    random_choice S l g = Ok (x, g') -> x ∈ l;
  random_choice_draws : forall l g,
    l ≠ [] -> exists x g', random_choice S l g = Ok (x, g');
  np_random_choice_elem : forall l g x g',
    np_random_choice S l g = Ok (x, g') -> x ∈ l;
  np_random_choice_draws : forall l g,
    l ≠ [] -> exists x g', np_random_choice S l g = Ok (x, g');
  np_random_choice_p_elem : forall l p g x g',
    np_random_choice_p S l p g = Ok (x, g') -> x ∈ l;
  np_random_choice_p_draws : forall l p g,
    l ≠ [] -> length p = length l -> Forall (Qle 0) p -> (Qsum p == 1)%Q ->
    exists x g', np_random_choice_p S l p g = Ok (x, g')
}.

Record Ant : Type := {
  alpha : Q;
  beta : Q;
  current_location : location;
  traveled_distance : num;
  tour : list location;
  visited_locations : gset location
}.

(** [Ant.__init__]; the environment an ant has joined is shared by all
    ants and passed to the methods that read it. *)
Definition Ant_init (alpha0 beta0 : Q) (initial_location : location) : Ant :=
  {| alpha := alpha0; beta := beta0;
     current_location := initial_location;
     traveled_distance := Fin 0;
     tour := [initial_location];
     visited_locations := {[initial_location]} |}.

(** [d[k] = v] on a dictionary whose insertion order is observed. *)
Definition dict_set (k : Z) (v : Q) (d : list (Z * Q)) : list (Z * Q) :=
  if decide (k ∈ d.*1)
  then (fun kv : Z * Q => if decide (kv.1 = k) then (k, v) else kv) <$> d
  else d ++ [(k, v)].

(** [self.tour[0]] *)
Definition tour_0 (a : Ant) : outcome location :=
  match tour a with
  | [] => Raise IndexError
  | x :: _ => Ok x
  end.

Section AntMethods.

(** The float power [x ** y]. *)
Variable fpow : Q -> Q -> Q.
Variable S : Sampler.

(** [1.0 / distance] under the guard [distance > 0]. *)
Definition heuristic_of (distance : num) : Q :=
  if num_ltb (Fin 0) distance then recip distance else 1%Q.

(** One round of the loop of [select_path] over the possible locations. *)
Definition weigh (env : Environment) (a : Ant) (st : list (Z * Q) * Q)
    (next_location : Z) : list (Z * Q) * Q :=
  let '(probabilities, denominator) := st in
  if decide (Some next_location ∈ visited_locations a) then st
  else
    let pheromone :=
      default 0%Q (edge (current_location a) (Some next_location)
                     ≫= (fun k => get_pheromone_map env !! k)) in
    let distance := get_distance env (current_location a) (Some next_location) in
    let heuristic := heuristic_of distance in
    let probability := (fpow pheromone (alpha a) * fpow heuristic (beta a))%Q in
    (dict_set next_location probability probabilities,
     (denominator + probability)%Q).

Definition select_path (env : Environment) (a : Ant) (g : rng S)
  : outcome (location * rng S) :=
  if decide (size (visited_locations a) = length (get_possible_locations env))
  then do start <- tour_0 a; Ok (start, g)
  else
    let '(probabilities, denominator) :=
      foldl (weigh env a) ([], 0%Q) (get_possible_locations env) in
    let probabilities :=
      if Qlt_le_dec 0 denominator
      then (fun kv : Z * Q => (kv.1, (kv.2 / denominator)%Q)) <$> probabilities
      else probabilities in
    let locations := probabilities.*1 in
    let weights := probabilities.*2 in
    do r <- (if Qeq_bool (Qsum weights) 0
             then random_choice S locations g
             else np_random_choice_p S locations weights g);
    Ok (Some r.1, r.2).

(** [Ant.visit]: the ant after the call, and the value returned.
    [Ant.get_distance] only forwards to [Environment.get_distance]. *)
Definition visit (env : Environment) (loc : location) (a : Ant) : Ant * bool :=
  if decide (loc ≠ current_location a) then
    ({| alpha := alpha a; beta := beta a;
        current_location := loc;
        traveled_distance :=
          num_add (traveled_distance a) (get_distance env (current_location a) loc);
        tour := tour a ++ [loc];
        visited_locations := visited_locations a ∪ {[loc]} |}, true)
  else (a, false).

(** The block at the head of [Ant.run]. *)
Definition reset_if_used (a : Ant) : outcome Ant :=
  if decide (1 < size (visited_locations a))%nat then
    do start_location <- tour_0 a;
    Ok {| alpha := alpha a; beta := beta a;
          current_location := start_location;
          traveled_distance := Fin 0;
          tour := [start_location];
          visited_locations := {[start_location]} |}
  else Ok a.

(** [while len(self.visited_locations) < len(all_locations): ...] *)
Fixpoint visit_all (fuel : nat) (env : Environment) (a : Ant) (g : rng S)
  : outcome (Ant * rng S) :=
  if decide (size (visited_locations a) < length (get_possible_locations env))%nat
  then
    match fuel with
    | O => OutOfFuel
    | Datatypes.S fuel' =>
      do r <- select_path env a g;
      visit_all fuel' env (visit env r.1 a).1 r.2
    end
  else Ok (a, g).

(** Closing the tour: the block after the loop. *)
Definition close_tour (env : Environment) (a : Ant) : outcome Ant :=
  do start <- tour_0 a;
  if decide (current_location a ≠ start) then
    Ok {| alpha := alpha a; beta := beta a;
          current_location := current_location a;
          traveled_distance :=
            num_add (traveled_distance a)
                    (get_distance env (current_location a) start);
          tour := tour a;
          visited_locations := visited_locations a |}
  else Ok a.

(** [Ant.run]: the pair returned, the ant as the call leaves it, and the
    generator state. *)
Definition run (fuel : nat) (env : Environment) (a : Ant) (g : rng S)
  : outcome ((list location * num) * Ant * rng S) :=
  do a0 <- reset_if_used a;
  do r <- visit_all fuel env a0 g;
  do a1 <- close_tour env r.1;
  Ok ((tour a1, traveled_distance a1), a1, r.2).

End AntMethods.

(** ** ant-colony.py *)

Record AntColony : Type := {
  ant_population : Z;
  iterations : Z;
  colony_alpha : Q;
  colony_beta : Q;
  colony_rho : Q;
  environment : Environment;
  ants : list Ant
}.

(** What one iteration of [solve] accumulates. *)
Record progress : Type := {
  ant_tours : list (list location);
  ant_distances : list num;
  solution : list location;
  shortest_distance : num
}.

Section Colony.

Variable fsqrt : Q -> Q.
Variable set_iter : list Z -> list Z.
Variable fpow : Q -> Q -> Q.
Variable S : Sampler.

(** [AntColony.__init__]: [range(ant_population)] is empty for a
    population that is not positive. *)
Definition AntColony_init (population iters : Z) (alpha0 beta0 rho0 : Q)
    (p : problem) : outcome AntColony :=
  do env <- Environment_init fsqrt set_iter rho0 p;
  Ok {| ant_population := population; iterations := iters;
        colony_alpha := alpha0; colony_beta := beta0; colony_rho := rho0;
        environment := env;
        ants := replicate (Z.to_nat population) (Ant_init alpha0 beta0 None) |}.

(** The body of the loop of [solve] that gives an ant its starting city. *)
Definition place (a : Ant) (initial_location : location) : Ant :=
  {| alpha := alpha a; beta := beta a;
     current_location := initial_location;
     traveled_distance := Fin 0;
     tour := [initial_location];
     visited_locations := {[initial_location]} |}.

Fixpoint place_ants (all_locations : list Z) (todo : list Ant) (g : rng S)
  : outcome (list Ant * rng S) :=
  match todo with
  | [] => Ok ([], g)
  | ant :: rest =>
    do r <- np_random_choice S all_locations g;
    do r' <- place_ants all_locations rest r.2;
    Ok (place ant (Some r.1) :: r'.1, r'.2)
  end.

(** The inner loop of [solve]: every ant constructs a tour. *)
Fixpoint run_ants (fuel : nat) (env : Environment) (todo : list Ant)
    (pr : progress) (g : rng S) : outcome (list Ant * progress * rng S) :=
  match todo with
  | [] => Ok ([], pr, g)
  | ant :: rest =>
    do r <- run fpow S fuel env ant g;
    let '((tour1, distance), ant', g') := r in
    let better := num_ltb distance (shortest_distance pr) in
    let pr' :=
      {| ant_tours := ant_tours pr ++ [tour1];
         ant_distances := ant_distances pr ++ [distance];
         solution := if better then tour1 else solution pr;
         shortest_distance := if better then distance else shortest_distance pr |} in
    do r' <- run_ants fuel env rest pr' g';
    Ok (ant' :: r'.1.1, r'.1.2, r'.2)
  end.

(** The outer loop of [solve], [k] iterations left. *)
Fixpoint iterate (k : nat) (fuel : nat) (env : Environment) (colony : list Ant)
    (best : list location * num) (g : rng S)
  : outcome (Environment * list Ant * (list location * num) * rng S) :=
  match k with
  | O => Ok (env, colony, best, g)
  | Datatypes.S k' =>
    do r <- run_ants fuel env colony
              {| ant_tours := []; ant_distances := [];
                 solution := best.1; shortest_distance := best.2 |} g;
    let '(colony', pr, g') := r in
    let '(env', ended) :=
      update_pheromone_map env (ant_tours pr) (ant_distances pr) in
    do _u <- ended;
    iterate k' fuel env' colony' (solution pr, shortest_distance pr) g'
  end.

(** [AntColony.solve]: the pair returned and the colony as the call
    leaves it. *)
Definition solve (fuel : nat) (c : AntColony) (g : rng S)
  : outcome ((list location * num) * AntColony * rng S) :=
  let all_locations := get_possible_locations (environment c) in
  do placed <- place_ants all_locations (ants c) g;
  do r <- iterate (Z.to_nat (iterations c)) fuel (environment c) placed.1
            ([], Inf) placed.2;
  let '(env', colony', best, g') := r in
  Ok (best,
      {| ant_population := ant_population c; iterations := iterations c;
         colony_alpha := colony_alpha c; colony_beta := colony_beta c;
         colony_rho := colony_rho c;
         environment := env'; ants := colony' |},
      g').

End Colony.

(** ** Auxiliary definitions used by the statements *)

(** The shape shared by the two double loops of [environment.py]. *)
Definition fill_pairs {V} (val : Z -> Z -> V) (rows cols : list Z)
    (m : gmap (Z * Z) V) : gmap (Z * Z) V :=
  foldl (fun m i =>
    foldl (fun m j => if decide (i ≠ j) then <[(i, j) := val i j]> m else m)
          m cols) m rows.

(** The table [Environment.__init__] builds, as a pure function. *)
Definition distance_table (fsqrt : Q -> Q) (p : problem) : gmap (Z * Z) Z :=
  fill_pairs (fun i j => att_distance fsqrt (node_coords p i) (node_coords p j))
             (get_nodes p) (get_nodes p) ∅.

(** A square root with 20 fractional bits, to run the model on examples. *)
Definition dyadic_sqrt (q : Q) : Q :=
  (inject_Z (Z.sqrt (Qfloor (q * inject_Z (2 ^ 40)))) / inject_Z (2 ^ 20))%Q.

(** The four corners of the unit square. *)
Definition unit_square : problem :=
  {| get_nodes := [1; 2; 3; 4];
     node_coords := fun i =>
       if decide (i = 1) then (0, 0)%Q
       else if decide (i = 2) then (0, 1)%Q
       else if decide (i = 3) then (1, 1)%Q
       else (1, 0)%Q |}.

(** Two cities at (0, 0) and (10, 10). *)
Definition far_corner : problem :=
  {| get_nodes := [1; 2];
     node_coords := fun i => if decide (i = 1) then (0, 0)%Q else (10, 10)%Q |}.

(** Four cities on a line, at 0, 100, 10 and 50: from city 1 the nearest
    city is 3, then 4, then 2. *)
Definition line_cities : problem :=
  {| get_nodes := [1; 2; 3; 4];
     node_coords := fun i =>
       if decide (i = 1) then (0, 0)%Q
       else if decide (i = 2) then (100, 0)%Q
       else if decide (i = 3) then (10, 0)%Q
       else (50, 0)%Q |}.

(** *** Deposits, counted per step of a tour *)

(** How many of the two additions made for one step land on the key [k]. *)
Definition hits (k : Z * Z) (step : location * location) : Z :=
  (if decide (edge step.1 step.2 = Some k) then 1 else 0)
  + (if decide (edge step.2 step.1 = Some k) then 1 else 0).

(** How many additions a whole tour makes on the key [k]. *)
Definition traversals (tour0 : list location) (k : Z * Z) : Z :=
  foldr Z.add 0 (hits k <$> tour_steps tour0).

(** What a tour of length [L] adds to the trail of [k]. *)
Definition tour_deposit (k : Z * Z) (tl : list location * num) : Q :=
  (inject_Z (traversals tl.1 k) * recip tl.2)%Q.

Definition batch_deposit (k : Z * Z) (batch : list (list location * num)) : Q :=
  Qsum (tour_deposit k <$> batch).

(** *** The steps of a closed tour, listed without indices *)

(** The pairs of neighbours in a list. *)
Fixpoint consecutive_pairs {A} (l : list A) : list (A * A) :=
  match l with
  | a :: (b :: _) as l' => (a, b) :: consecutive_pairs l'
  | _ => []
  end.

(** The steps of the closed tour [t]: its consecutive pairs, and the
    wrap-around pair from the last location back to the first. *)
Definition closed_tour_steps (t : list location) : list (location * location) :=
  match t with
  | [] => []
  | first :: _ => consecutive_pairs t ++ [(default first (last t), first)]
  end.

(** How many steps of the closed tour [t] lead from [i] to [j] or from
    [j] to [i]. *)
Definition steps_between (t : list location) (i j : Z) : nat :=
  (length (filter (fun s => s = (Some i, Some j)) (closed_tour_steps t))
   + length (filter (fun s => s = (Some j, Some i)) (closed_tour_steps t)))%nat.

(** What the batch adds to the trail of [(i, j)]: [1/L] for every tour of
    length [L] and every step of it between [i] and [j]. *)
Definition deposit_between (i j : Z) (batch : list (list location * num)) : Q :=
  Qsum ((fun tl : list location * num =>
           (inject_Z (Z.of_nat (steps_between tl.1 i j)) * recip tl.2)%Q) <$> batch).

(** The reading under which a tour contributes [1/L] once, however often
    it steps between [i] and [j]. *)
Definition deposit_once_between (i j : Z) (batch : list (list location * num)) : Q :=
  Qsum ((fun tl : list location * num =>
           if decide (0 < steps_between tl.1 i j)%nat then recip tl.2 else 0%Q)
        <$> batch).

(** Every step of the closed tour is between two cities whose two
    directed edges are keys of the map. *)
Definition tour_on_map (m : gmap (Z * Z) Q) (t : list location) : Prop :=
  forall a b, (a, b) ∈ closed_tour_steps t ->
    exists x y, a = Some x ∧ b = Some y ∧ is_Some (m !! (x, y)) ∧ is_Some (m !! (y, x)).

(** Every step of the tour is between two cities whose two directed edges
    are keys of the map. *)
Definition steps_in_map (m : gmap (Z * Z) Q) (tour0 : list location) : Prop :=
  forall a b, (a, b) ∈ tour_steps tour0 ->
    exists x y, a = Some x ∧ b = Some y ∧ is_Some (m !! (x, y)) ∧ is_Some (m !! (y, x)).

Definition num_pos (x : num) : Prop := num_ltb (Fin 0) x = true.

Definition nonneg_map (m : gmap (Z * Z) Q) : Prop :=
  map_Forall (fun _ v => (0 <= v)%Q) m.

(** A two-city environment with unit trails and evaporation rate 1/2. *)
Definition two_cities : Environment :=
  {| rho := 1 # 2; nodes := [1; 2];
     coordinates := {[1 := (0, 0)%Q; 2 := (3, 4)%Q]};
     distances := {[(1, 2) := 2; (2, 1) := 2]};
     pheromone_map := {[(1, 2) := 1%Q; (2, 1) := 1%Q]} |}.

(** [m'] has the keys of [m], the trail of [k] raised by [f k]. *)
Definition bumped (m m' : gmap (Z * Z) Q) (f : Z * Z -> Q) : Prop :=
  forall k,
    match m !! k with
    | Some v => exists v', m' !! k = Some v' ∧ (v' == v + f k)%Q
    | None => m' !! k = None
    end.

(** The tour of the two cities, with its length in [two_cities]. *)
Definition there_and_back : list location := [Some 1; Some 2].
Definition one_ant_batch : list (list location * num) := [(there_and_back, Fin 4)].

(** *** Lengths of paths and tours *)

(** The sum of the distances between consecutive locations of [l]. *)
Fixpoint path_length (env : Environment) (l : list location) : num :=
  match l with
  | a :: (b :: _) as l' => num_add (get_distance env a b) (path_length env l')
  | _ => Fin 0
  end.

(** The same plus the closing edge from the last location back to the first. *)
Definition closed_length (env : Environment) (l : list location) : num :=
  match l with
  | [] => Fin 0
  | a :: _ => num_add (path_length env l) (get_distance env (default a (last l)) a)
  end.

(** *** Greedy nearest-neighbour tours *)

(** [x] is an unvisited city nearest to [cur]: the table holds a distance
    from [cur] to every unvisited city, and none of them is smaller than
    the one to [x]. *)
Definition nearest (env : Environment) (cur : Z) (unvisited : gset Z) (x : Z) : Prop :=
  x ∈ unvisited
  ∧ exists dx : Z,
      distances env !! (cur, x) = Some dx
      ∧ forall y, y ∈ unvisited ->
          exists dy : Z, distances env !! (cur, y) = Some dy ∧ dx <= dy.

(** [rest] continues a tour standing at [cur]: it moves to a nearest
    unvisited city until none is left. *)
Inductive greedy_path (env : Environment) : Z -> gset Z -> list Z -> Prop :=
| greedy_done (cur : Z) : greedy_path env cur ∅ []
| greedy_move (cur : Z) (unvisited : gset Z) (x : Z) (rest : list Z) :
    nearest env cur unvisited x ->
    greedy_path env x (unvisited ∖ {[x]}) rest ->
    greedy_path env cur unvisited (x :: rest).

(** A greedy nearest-neighbour tour of the environment from its first node. *)
Definition nearest_neighbour_tour (env : Environment) (t : list Z) : Prop :=
  exists start rest,
    t = start :: rest
    ∧ head (nodes env) = Some start
    ∧ greedy_path env start (list_to_set (nodes env) ∖ {[start]}) rest.

(** *** Ants on a tour *)

(** The ant stands at the end of the tour [cities], begun at [s], and has
    travelled [d]. *)
Definition has_toured (env : Environment) (s : Z) (cities : list Z) (d : num)
    (a : Ant) : Prop :=
  head cities = Some s
  ∧ NoDup cities
  ∧ (forall c, c ∈ cities -> c ∈ nodes env)
  ∧ tour a = Some <$> cities
  ∧ visited_locations a = list_to_set (Some <$> cities)
  ∧ last (Some <$> cities) = Some (current_location a)
  ∧ traveled_distance a = d.

(** The state inside the loop of [run]: the distance travelled is the
    length of the path so far. *)
Definition on_tour (env : Environment) (s : Z) (cities : list Z) (a : Ant) : Prop :=
  has_toured env s cities (path_length env (Some <$> cities)) a.

(** The state [solve] gives an ant when it assigns it the start [s]. *)
Definition fresh_at (s : Z) (a : Ant) : Ant :=
  {| alpha := alpha a; beta := beta a;
     current_location := Some s;
     traveled_distance := Fin 0;
     tour := [Some s];
     visited_locations := {[Some s]} |}.

(** What [Ant.run] may be called on: an ant whose tour begins at a city
    [s] of the environment and which is either fresh or has been used. *)
Definition ant_ready (env : Environment) (s : Z) (a : Ant) : Prop :=
  s ∈ nodes env
  ∧ head (tour a) = Some (Some s)
  ∧ ((1 < size (visited_locations a))%nat ∨ a = fresh_at s a).

(** The weight [select_path] gives the candidate [x]. *)
Definition weight_of (fpow : Q -> Q -> Q) (env : Environment) (a : Ant) (x : Z) : Q :=
  (fpow (default 0%Q (edge (current_location a) (Some x)
                        ≫= (fun k => get_pheromone_map env !! k))) (alpha a)
   * fpow (heuristic_of (get_distance env (current_location a) (Some x))) (beta a))%Q.

(** A sampler that takes the elements of the sequence in turn. *)
Definition take_turns (l : list Z) (g : nat) : outcome (Z * nat) :=
  match l !! (g mod length l)%nat with
  | Some x => Ok (x, Datatypes.S g)
  | None => Raise IndexError
  end.

Definition round_robin : Sampler :=
  {| rng := nat;
     random_choice := take_turns;
     np_random_choice := take_turns;
     np_random_choice_p := fun l _ => take_turns l |}.

(** A power for examples: exponents are rounded to natural numbers. *)
Definition int_pow (x y : Q) : Q := (x ^ Z.max 0 (Qfloor y))%Q.

(** Two states of one ant: ready from the same start, same parameters. *)
Definition same_start (env : Environment) (a a' : Ant) : Prop :=
  exists s, ant_ready env s a ∧ ant_ready env s a'
            ∧ alpha a' = alpha a ∧ beta a' = beta a.

(** * Properties *)

(** ** Loops *)

Lemma for_each_pure {A S} (l : list A) (body : A -> S -> outcome S)
    (f : S -> A -> S) (s : S) :
  (forall x s, x ∈ l -> body x s = Ok (f s x)) ->
  for_each l body s = Ok (foldl f s l).
Proof.
  revert s. induction l as [|x l IH]; intros s Hb; [done|].
  cbn [for_each foldl]. rewrite Hb by (by left). cbn [obind].
  apply IH. intros; apply Hb; by right.
Qed.

(** ** The double loops over the nodes *)

Lemma fill_row_lookup {V} (val : Z -> Z -> V) (i : Z) (cols : list Z)
    (m : gmap (Z * Z) V) (a b : Z) :
  foldl (fun m j => if decide (i ≠ j) then <[(i, j) := val i j]> m else m) m cols
    !! (a, b)
  = if decide (a = i ∧ b ∈ cols ∧ a ≠ b) then Some (val a b) else m !! (a, b).
Proof.
  revert m. induction cols as [|j cols IH]; intros m.
  - cbn [foldl]. rewrite decide_False; [done|].
    intros (_ & H & _). by apply elem_of_nil in H.
  - cbn [foldl]. rewrite IH. clear IH.
    destruct (decide (a = i ∧ b ∈ cols ∧ a ≠ b)) as [(-> & Hb & Hne)|Hn].
    + rewrite decide_True; [done|]. split_and!; [done| |done]. by right.
    + destruct (decide (i ≠ j)) as [Hij|Hij].
      * destruct (decide ((i, j) = (a, b))) as [Heq|Hneq].
        -- inversion Heq; subst. rewrite lookup_insert_eq.
           rewrite decide_True; [done|]. split_and!; [done|by left|done].
        -- rewrite lookup_insert_ne by done.
           destruct (decide (a = i ∧ b ∈ j :: cols ∧ a ≠ b))
             as [(-> & Hb & Hne)|]; [|done].
           apply elem_of_cons in Hb as [->|Hb]; [done|]. destruct Hn. done.
      * destruct (decide (a = i ∧ b ∈ j :: cols ∧ a ≠ b))
          as [(-> & Hb & Hne)|]; [|done].
        apply elem_of_cons in Hb as [->|Hb]; [|by destruct Hn].
        apply dec_stable in Hij. done.
Qed.

Lemma fill_pairs_lookup {V} (val : Z -> Z -> V) (rows cols : list Z)
    (m : gmap (Z * Z) V) (a b : Z) :
  fill_pairs val rows cols m !! (a, b)
  = if decide (a ∈ rows ∧ b ∈ cols ∧ a ≠ b) then Some (val a b) else m !! (a, b).
Proof.
  unfold fill_pairs. revert m. induction rows as [|i rows IH]; intros m.
  - cbn [foldl]. rewrite decide_False; [done|].
    intros (H & _). by apply elem_of_nil in H.
  - cbn [foldl]. rewrite IH, fill_row_lookup. clear IH.
    destruct (decide (a ∈ rows ∧ b ∈ cols ∧ a ≠ b)) as [(Ha & Hb & Hne)|Hn].
    + rewrite decide_True; [done|]. split_and!; [by right|done|done].
    + destruct (decide (a = i ∧ b ∈ cols ∧ a ≠ b)) as [(-> & Hb & Hne)|Hn'].
      * rewrite decide_True; [done|]. split_and!; [by left|done|done].
      * destruct (decide (a ∈ i :: rows ∧ b ∈ cols ∧ a ≠ b))
          as [(Ha & Hb & Hne)|]; [|done].
        apply elem_of_cons in Ha as [->|Ha]; [by destruct Hn'|by destruct Hn].
Qed.

Lemma load_coordinates_lookup (p : problem) (ns : list Z) (i : Z) :
  i ∈ ns -> load_coordinates p ns !! i = Some (node_coords p i).
Proof.
  unfold load_coordinates.
  assert (forall (d : gmap Z (Q * Q)),
    foldl (fun d node => <[node := node_coords p node]> d) d ns !! i
    = if decide (i ∈ ns) then Some (node_coords p i) else d !! i) as H.
  { induction ns as [|x ns IH]; intros d.
    - cbn [foldl]. rewrite decide_False; [done|]. by intros H%elem_of_nil.
    - cbn [foldl]. rewrite IH. destruct (decide (i ∈ ns)) as [Hi|Hi].
      + rewrite decide_True; [done|by right].
      + destruct (decide (x = i)) as [->|Hx].
        * rewrite lookup_insert_eq, decide_True; [done|by left].
        * rewrite lookup_insert_ne by done. rewrite decide_False; [done|].
          intros [->|?]%elem_of_cons; done. }
  intros Hi. rewrite H. by rewrite decide_True.
Qed.

(** ** Rounding *)

Lemma py_round_ge_floor (r : Q) : Qfloor r <= py_round r.
Proof.
  unfold py_round. destruct (_ ?= _)%Q; [destruct (Z.even _)|..]; lia.
Qed.

Lemma att_round_ge (r : Q) : (r <= inject_Z (att_round r))%Q.
Proof.
  unfold att_round. destruct (Qlt_le_dec _ _) as [Hlt|Hle]; [|done].
  pose proof (Qlt_floor r) as Hf.
  pose proof (py_round_ge_floor r) as Hp.
  apply Qlt_le_weak. eapply Qlt_le_trans; [exact Hf|].
  rewrite <- Zle_Qle. lia.
Qed.

Lemma py_round_le_succ_floor (r : Q) : py_round r <= Qfloor r + 1.
Proof.
  unfold py_round. destruct (_ ?= _)%Q; [destruct (Z.even _)|..]; lia.
Qed.

Lemma py_round_up_above_floor (r : Q) :
  py_round r = Qfloor r + 1 -> (inject_Z (Qfloor r) < r)%Q.
Proof.
  unfold py_round.
  destruct (Qcompare_spec (r - inject_Z (Qfloor r)) (1 # 2)) as [He|Hl|Hg].
  - intros _. lra.
  - lia.
  - intros _. lra.
Qed.

Lemma att_round_lt_succ (r : Q) : (inject_Z (att_round r) < r + 1)%Q.
Proof.
  unfold att_round. destruct (Qlt_le_dec _ _) as [Hc|Hc].
  - rewrite inject_Z_plus. change (inject_Z 1) with 1%Q. lra.
  - pose proof (py_round_ge_floor r) as H1.
    pose proof (py_round_le_succ_floor r) as H2.
    pose proof (Qfloor_le r) as Hf.
    destruct (decide (py_round r = Qfloor r)) as [->|Hne]; [lra|].
    assert (py_round r = Qfloor r + 1) as E by lia.
    pose proof (py_round_up_above_floor r E) as H3.
    rewrite E, inject_Z_plus. change (inject_Z 1) with 1%Q. lra.
Qed.

Lemma att_round_nonneg (r : Q) : (0 <= r)%Q -> 0 <= att_round r.
Proof.
  intros Hr. pose proof (att_round_ge r) as H.
  assert (0 <= inject_Z (att_round r))%Q as H0 by (eapply Qle_trans; done).
  by rewrite (Zle_Qle 0).
Qed.

Lemma att_round_pos (r : Q) : (0 < r)%Q -> 0 < att_round r.
Proof.
  intros Hr. pose proof (att_round_ge r) as H.
  assert (0 < inject_Z (att_round r))%Q as H0 by (eapply Qlt_le_trans; done).
  by rewrite (Zlt_Qlt 0).
Qed.

Lemma dyadic_sqrt_nonneg (x : Q) : (0 <= dyadic_sqrt x)%Q.
Proof.
  unfold dyadic_sqrt. apply Qle_shift_div_l; [done|].
  rewrite Qmult_0_l. rewrite <- (Zle_Qle 0). apply Z.sqrt_nonneg.
Qed.

Lemma Qsquare_minus_sym (a b : Q) : ((a - b) ^ 2 = (b - a) ^ 2)%Q.
Proof.
  destruct a as [an ad], b as [bn bd].
  unfold Qpower, Qpower_positive, pow_pos, Qminus, Qplus, Qopp, Qmult. cbn.
  f_equal; [ring|]. by rewrite (Pos.mul_comm ad bd).
Qed.

Section EnvFacts.

Variable fsqrt : Q -> Q.
Variable set_iter : list Z -> list Z.

Lemma att_r_sym (c1 c2 : Q * Q) : att_r fsqrt c1 c2 = att_r fsqrt c2 c1.
Proof.
  destruct c1 as [x1 y1], c2 as [x2 y2]. unfold att_r.
  by rewrite (Qsquare_minus_sym x1 x2), (Qsquare_minus_sym y1 y2).
Qed.

Lemma att_distance_sym (c1 c2 : Q * Q) :
  att_distance fsqrt c1 c2 = att_distance fsqrt c2 c1.
Proof. unfold att_distance. by rewrite att_r_sym. Qed.

Lemma compute_distances_ok (p : problem) :
  compute_distances fsqrt (get_nodes p) (load_coordinates p (get_nodes p))
  = Ok (distance_table fsqrt p).
Proof.
  unfold compute_distances, distance_table, fill_pairs.
  apply for_each_pure. intros i d Hi.
  apply for_each_pure. intros j d' Hj.
  case_decide; [|done].
  unfold getitem. rewrite !load_coordinates_lookup by done. done.
Qed.

Lemma distance_table_lookup (p : problem) (i j : Z) :
  distance_table fsqrt p !! (i, j)
  = if decide (i ∈ get_nodes p ∧ j ∈ get_nodes p ∧ i ≠ j)
    then Some (att_distance fsqrt (node_coords p i) (node_coords p j))
    else None.
Proof. unfold distance_table. by rewrite fill_pairs_lookup, lookup_empty. Qed.

(** What a successfully constructed environment holds. *)
Lemma Environment_init_fields (rho0 : Q) (p : problem) (env : Environment) :
  Environment_init fsqrt set_iter rho0 p = Ok env ->
  rho env = rho0 ∧ nodes env = get_nodes p ∧
  coordinates env = load_coordinates p (get_nodes p) ∧
  distances env = distance_table fsqrt p.
Proof.
  unfold Environment_init. rewrite compute_distances_ok. cbn [obind].
  unfold initialize_pheromone_map.
  destruct (nn_tour_length _ _) as [L| |]; cbn [obind]; [|done..].
  destruct (one_over _) as [v| |]; cbn [obind]; [|done..].
  intros [= <-]. done.
Qed.

End EnvFacts.

(** ** Claims about the distance table *)

(** C4. For two different cities [i] and [j] of the instance, at
    [(x1, y1)] and [(x2, y2)], the integer [t] that [Environment.__init__]
    stores for the pair is never below the real-valued pseudo-Euclidean
    value [r = sqrt (((x1 - x2)^2 + (y1 - y2)^2) / 10)] of their
    coordinates: the round-then-correct step never underestimates.  It
    does not overshoot either: [t < r + 1], so [t] is the least integer
    not below [r]. *)
Theorem att_distance_never_underestimates (fsqrt : Q -> Q) (p : problem)
    (i j : Z) (x1 y1 x2 y2 : Q) :
  i ∈ get_nodes p -> j ∈ get_nodes p -> i ≠ j ->
  node_coords p i = (x1, y1) -> node_coords p j = (x2, y2) ->
  exists (d : gmap (Z * Z) Z) (t : Z),
    compute_distances fsqrt (get_nodes p) (load_coordinates p (get_nodes p)) = Ok d
    ∧ d !! (i, j) = Some t
    ∧ (fsqrt (((x1 - x2) ^ 2 + (y1 - y2) ^ 2) / 10) <= inject_Z t)%Q
    ∧ (inject_Z t < fsqrt (((x1 - x2) ^ 2 + (y1 - y2) ^ 2) / 10) + 1)%Q.
Proof.
  intros Hi Hj Hne Hci Hcj. eexists _, _. split; [apply compute_distances_ok|].
  rewrite distance_table_lookup, decide_True by done.
  split; [done|]. unfold att_distance, att_r. rewrite Hci, Hcj.
  split; [apply att_round_ge|apply att_round_lt_succ].
Qed.

(** On [far_corner], cities 1 and 2 lie at (0, 0) and (10, 10): the
    value under the root is 20, the root taken by [dyadic_sqrt] lies
    strictly between 4 and 5, and the stored distance is 5. *)
Lemma att_distance_never_underestimates_witness :
  exists (d : gmap (Z * Z) Z) (t : Z),
    compute_distances dyadic_sqrt (get_nodes far_corner)
      (load_coordinates far_corner (get_nodes far_corner)) = Ok d
    ∧ d !! (1, 2) = Some t
    ∧ (dyadic_sqrt (((0 - 10) ^ 2 + (0 - 10) ^ 2) / 10) <= inject_Z t)%Q
    ∧ (inject_Z t < dyadic_sqrt (((0 - 10) ^ 2 + (0 - 10) ^ 2) / 10) + 1)%Q.
Proof.
  apply (att_distance_never_underestimates dyadic_sqrt far_corner 1 2 0 0 10 10).
  - apply list_elem_of_In. simpl. tauto.
  - apply list_elem_of_In. simpl. tauto.
  - lia.
  - reflexivity.
  - reflexivity.
Defined.

Example far_corner_distance :
  distance_table dyadic_sqrt far_corner !! (1, 2) = Some 5
  ∧ (4 < dyadic_sqrt (((0 - 10) ^ 2 + (0 - 10) ^ 2) / 10))%Q
  ∧ (dyadic_sqrt (((0 - 10) ^ 2 + (0 - 10) ^ 2) / 10) < 5)%Q.
Proof. split_and!; by vm_compute. Qed.

(** C8. The distance table is symmetric: for two different cities of the
    instance both ordered pairs are stored, with the same distance. *)
Theorem distance_table_symmetric (fsqrt : Q -> Q) (p : problem) (i j : Z) :
  i ∈ get_nodes p -> j ∈ get_nodes p -> i ≠ j ->
  exists (d : gmap (Z * Z) Z) (t : Z),
    compute_distances fsqrt (get_nodes p) (load_coordinates p (get_nodes p)) = Ok d
    ∧ d !! (i, j) = Some t ∧ d !! (j, i) = Some t.
Proof.
  intros Hi Hj Hne. eexists _, _. split; [apply compute_distances_ok|].
  rewrite !distance_table_lookup, !decide_True by done.
  split; [done|]. by rewrite att_distance_sym.
Qed.

Lemma distance_table_symmetric_witness :
  exists (d : gmap (Z * Z) Z) (t : Z),
    compute_distances dyadic_sqrt (get_nodes unit_square)
      (load_coordinates unit_square (get_nodes unit_square)) = Ok d
    ∧ d !! (2, 4) = Some t ∧ d !! (4, 2) = Some t.
Proof.
  apply (distance_table_symmetric dyadic_sqrt unit_square 2 4).
  - apply list_elem_of_In. simpl. tauto.
  - apply list_elem_of_In. simpl. tauto.
  - lia.
Defined.

(** C10. [get_distance] on a constructed environment is a total lookup:
    it answers [float('inf')] for every pair that is not a pair of two
    different cities of the instance ([None], an unknown city on either
    side, or a city with itself), and the stored ATT distance for every
    ordered pair of different cities. *)
Theorem get_distance_total (fsqrt : Q -> Q) (set_iter : list Z -> list Z)
    (rho0 : Q) (p : problem) (env : Environment) :
  Environment_init fsqrt set_iter rho0 p = Ok env ->
  (forall a b : location,
     get_distance env a b = Inf
     ∨ exists t, get_distance env a b = Fin t)
  ∧ (forall a b : location,
       (a = None ∨ b = None
        ∨ (exists x, a = Some x ∧ x ∉ get_nodes p)
        ∨ (exists y, b = Some y ∧ y ∉ get_nodes p)
        ∨ a = b) ->
       get_distance env a b = Inf)
  ∧ (forall x y : Z,
       x ∈ get_nodes p -> y ∈ get_nodes p -> x ≠ y ->
       get_distance env (Some x) (Some y)
       = Fin (att_distance fsqrt (node_coords p x) (node_coords p y))).
Proof.
  intros Hinit.
  destruct (Environment_init_fields _ _ _ _ _ Hinit) as (_ & _ & _ & Hd).
  split_and!.
  - intros a b. unfold get_distance. destruct (_ ≫= _); eauto.
  - intros a b Hab. unfold get_distance.
    destruct a as [x|], b as [y|]; cbn [edge mbind option_bind]; try done.
    rewrite Hd, distance_table_lookup.
    rewrite decide_False; [done|]. intros (Hx & Hy & Hne).
    destruct Hab as [?|[?|[(x' & [= <-] & ?)|[(y' & [= <-] & ?)|[= ->]]]]]; done.
  - intros x y Hx Hy Hne. unfold get_distance. cbn [edge mbind option_bind].
    by rewrite Hd, distance_table_lookup, decide_True.
Qed.

Lemma get_distance_total_witness :
  exists env : Environment,
    Environment_init dyadic_sqrt (fun l => l) (1 # 2) unit_square = Ok env
    ∧ get_distance env (Some 1) (Some 7) = Inf
    ∧ get_distance env (Some 2) (Some 2) = Inf
    ∧ get_distance env (Some 1) (Some 2) = Fin 1.
Proof.
  destruct (Environment_init dyadic_sqrt (fun l => l) (1 # 2) unit_square)
    as [env| |] eqn:E; [|vm_compute in E; discriminate..].
  exists env. split; [done|].
  destruct (get_distance_total _ _ _ _ _ E) as (_ & Habsent & Hknown).
  split_and!.
  - apply Habsent. right; right; right; left. exists 7. split; [done|].
    rewrite list_elem_of_In. simpl. lia.
  - apply Habsent. by repeat right.
  - rewrite Hknown; [done| | |lia]; apply list_elem_of_In; simpl; tauto.
Defined.

(** ** Sums of rationals *)

Lemma Qsum_foldl (a : Q) (l : list Q) : (foldl Qplus a l == a + Qsum l)%Q.
Proof.
  unfold Qsum. revert a. induction l as [|x l IH]; intros a; cbn [foldl].
  - ring.
  - rewrite IH, (IH (0 + x)%Q). ring.
Qed.

Lemma Qsum_cons (x : Q) (l : list Q) : (Qsum (x :: l) == x + Qsum l)%Q.
Proof. unfold Qsum at 1. cbn [foldl]. rewrite Qsum_foldl. ring. Qed.

Lemma Qsum_nonneg (l : list Q) : Forall (Qle 0) l -> (0 <= Qsum l)%Q.
Proof.
  induction 1 as [|x l Hx Hl IH]; [done|]. rewrite Qsum_cons. lra.
Qed.

(** ** In-place loops *)

Lemma for_each_in_place_preserves {A S} (P : S -> Prop) (l : list A)
    (body : A -> S -> mutated S) (s : S) :
  (forall x s, x ∈ l -> P s -> P (body x s).1) ->
  P s -> P (for_each_in_place l body s).1.
Proof.
  revert s. induction l as [|x l IH]; intros s Hb Hs; [done|].
  cbn [for_each_in_place]. unfold mbind_in_place.
  pose proof (Hb x s ltac:(by left) Hs) as Hx.
  destruct (body x s) as [s' [[]| |]]; try done.
  apply IH; [|done]. intros; apply Hb; [by right|done].
Qed.

(** ** Deposits *)

Lemma bumped_zero (m : gmap (Z * Z) Q) (f : Z * Z -> Q) :
  (forall k, f k == 0)%Q -> bumped m m f.
Proof.
  intros Hf k. destruct (m !! k) as [v|] eqn:E; [|done].
  exists v. split; [done|]. rewrite Hf. ring.
Qed.

Lemma bumped_trans (m m1 m2 : gmap (Z * Z) Q) (f g h : Z * Z -> Q) :
  bumped m m1 f -> bumped m1 m2 g -> (forall k, h k == f k + g k)%Q ->
  bumped m m2 h.
Proof.
  intros H1 H2 Hh k. specialize (H1 k). specialize (H2 k).
  destruct (m !! k) as [v|].
  - destruct H1 as (v1 & E1 & Hv1). rewrite E1 in H2.
    destruct H2 as (v2 & E2 & Hv2). exists v2. split; [done|].
    rewrite Hv2, Hv1, Hh. ring.
  - by rewrite H1 in H2.
Qed.

Lemma bumped_is_Some (m m' : gmap (Z * Z) Q) (f : Z * Z -> Q) (k : Z * Z) :
  bumped m m' f -> is_Some (m !! k) -> is_Some (m' !! k).
Proof.
  intros H [v E]. specialize (H k). rewrite E in H.
  destruct H as (v' & -> & _). eauto.
Qed.

Lemma add_pheromone_bumped (m : gmap (Z * Z) Q) (k0 : Z * Z) (d : Q) :
  is_Some (m !! k0) ->
  exists m', add_pheromone (Some k0) d m = (m', Ok tt)
             ∧ bumped m m' (fun k => if decide (Some k0 = Some k) then d else 0%Q).
Proof.
  intros [v0 E0]. unfold add_pheromone. cbn [mbind option_bind]. rewrite E0.
  cbn [fmap option_fmap option_map]. eexists; split; [done|].
  intros k. destruct (decide (k0 = k)) as [<-|Hne].
  - rewrite E0, lookup_insert_eq. eexists; split; [done|].
    by rewrite decide_True.
  - rewrite lookup_insert_ne by done. destruct (m !! k) as [v|]; [|done].
    exists v; split; [done|]. rewrite decide_False by congruence. ring.
Qed.

Lemma deposit_step_bumped (m : gmap (Z * Z) Q) (d : Q) (x y : Z) :
  is_Some (m !! (x, y)) -> is_Some (m !! (y, x)) ->
  exists m', deposit_step d (Some x, Some y) m = (m', Ok tt)
             ∧ bumped m m' (fun k => inject_Z (hits k (Some x, Some y)) * d)%Q.
Proof.
  intros Hxy Hyx. unfold deposit_step. cbn [edge].
  destruct (add_pheromone_bumped m (x, y) d Hxy) as (m1 & E1 & B1).
  rewrite E1. cbn [mbind_in_place].
  destruct (add_pheromone_bumped m1 (y, x) d) as (m2 & E2 & B2).
  { eapply bumped_is_Some; done. }
  exists m2. split; [done|].
  eapply bumped_trans; [exact B1|exact B2|].
  intros k. unfold hits. cbn [fst snd edge].
  do 2 case_decide; rewrite ?inject_Z_plus; cbn [inject_Z]; ring.
Qed.

Lemma steps_bumped (m : gmap (Z * Z) Q) (d : Q) (steps : list (location * location)) :
  (forall a b, (a, b) ∈ steps ->
     exists x y, a = Some x ∧ b = Some y
                 ∧ is_Some (m !! (x, y)) ∧ is_Some (m !! (y, x))) ->
  exists m', for_each_in_place steps (deposit_step d) m = (m', Ok tt)
             ∧ bumped m m'
                 (fun k => inject_Z (foldr Z.add 0%Z (hits k <$> steps)) * d)%Q.
Proof.
  revert m. induction steps as [|[a b] steps IH]; intros m Hk.
  - exists m. split; [done|]. apply bumped_zero. intros k. cbn. ring.
  - destruct (Hk a b ltac:(by left)) as (x & y & -> & -> & Hxy & Hyx).
    destruct (deposit_step_bumped m d x y Hxy Hyx) as (m1 & E1 & B1).
    destruct (IH m1) as (m2 & E2 & B2).
    { intros a b Hab. destruct (Hk a b ltac:(by right))
        as (x' & y' & -> & -> & H1 & H2).
      exists x', y'. split_and!; [done|done|..]; eapply bumped_is_Some; done. }
    exists m2. split.
    + cbn [for_each_in_place]. rewrite E1. done.
    + eapply bumped_trans; [exact B1|exact B2|].
      intros k. cbn [fmap list_fmap foldr]. rewrite inject_Z_plus. ring.
Qed.

Lemma one_over_pos (L : num) : num_pos L -> one_over L = Ok (recip L) ∧ (0 <= recip L)%Q.
Proof.
  unfold num_pos. destruct L as [z|]; cbn; [|done].
  intros Hz%Z.ltb_lt. destruct z as [|z|z]; try lia. split; [done|].
  apply Qlt_le_weak, Qlt_shift_div_l; [|lra].
  by rewrite (Zlt_Qlt 0) in Hz.
Qed.

Lemma steps_in_map_bumped (m m' : gmap (Z * Z) Q) (f : Z * Z -> Q)
    (t : list location) :
  bumped m m' f -> steps_in_map m t -> steps_in_map m' t.
Proof.
  intros B H a b Hab. destruct (H a b Hab) as (x & y & -> & -> & H1 & H2).
  exists x, y. split_and!; [done|done|..]; eapply bumped_is_Some; done.
Qed.

Lemma batch_bumped (m : gmap (Z * Z) Q) (batch : list (list location * num)) :
  Forall (fun tl => num_pos tl.2 ∧ steps_in_map m tl.1) batch ->
  exists m', for_each_in_place batch deposit_tour m = (m', Ok tt)
             ∧ bumped m m' (fun k => batch_deposit k batch).
Proof.
  revert m. induction batch as [|[t L] batch IH]; intros m Hb.
  - exists m. split; [done|]. apply bumped_zero. done.
  - apply Forall_cons in Hb as [[HL Ht] Hb]. cbn [fst snd] in HL, Ht.
    destruct (one_over_pos L HL) as [EL _].
    destruct (steps_bumped m (recip L) (tour_steps t) Ht) as (m1 & E1 & B1).
    destruct (IH m1) as (m2 & E2 & B2).
    { eapply Forall_impl; [exact Hb|]. intros [t' L'] [? ?]. split; [done|].
      eapply steps_in_map_bumped; done. }
    exists m2. split.
    + cbn [for_each_in_place]. unfold deposit_tour at 1. rewrite EL, E1. done.
    + eapply bumped_trans; [exact B1|exact B2|].
      intros k. unfold batch_deposit. cbn [fmap list_fmap].
      rewrite Qsum_cons. unfold tour_deposit at 1, traversals. cbn [fst snd].
      reflexivity.
Qed.

Lemma hits_sym (x y : Z) (step : location * location) :
  hits (x, y) step = hits (y, x) step.
Proof.
  unfold hits. destruct step as [[a|] [b|]]; cbn [fst snd edge]; try done.
  repeat case_decide; simplify_eq; lia.
Qed.

Lemma traversals_sym (t : list location) (x y : Z) :
  traversals t (x, y) = traversals t (y, x).
Proof.
  unfold traversals. induction (tour_steps t) as [|s l IH]; [done|].
  cbn [fmap list_fmap foldr]. by rewrite IH, hits_sym.
Qed.

Lemma evaporate_lookup (r : Q) (m : gmap (Z * Z) Q) (k : Z * Z) :
  evaporate r m !! k = (fun v => ((1 - r) * v)%Q) <$> m !! k.
Proof. unfold evaporate. by rewrite lookup_fmap. Qed.

Lemma steps_in_map_evaporate (r : Q) (m : gmap (Z * Z) Q) (t : list location) :
  steps_in_map m t -> steps_in_map (evaporate r m) t.
Proof.
  intros H a b Hab. destruct (H a b Hab) as (x & y & -> & -> & H1 & H2).
  exists x, y. rewrite !evaporate_lookup, !fmap_is_Some. done.
Qed.

Lemma Forall_zip_both {A B} (P : A -> Prop) (R : B -> Prop) (l : list A) (k : list B) :
  Forall P l -> Forall R k -> Forall (fun x => R x.2 ∧ P x.1) (zip l k).
Proof.
  intros Hl. revert k. induction Hl as [|x l Hx Hl IH]; intros k Hk; [done|].
  destruct Hk as [|y k Hy Hk]; [done|]. cbn. constructor; [done|]. by apply IH.
Qed.

Lemma for_each_in_place_app {A S} (l1 l2 : list A) (body : A -> S -> mutated S) (s : S) :
  for_each_in_place (l1 ++ l2) body s
  = mbind_in_place (for_each_in_place l1 body s) (for_each_in_place l2 body).
Proof.
  revert s. induction l1 as [|x l1 IH]; intros s; [done|].
  cbn [app for_each_in_place]. unfold mbind_in_place at 1 3.
  destruct (body x s) as [s' [[]| |]]; [apply IH|done..].
Qed.

(** ** The steps of a tour *)

Lemma omap_ext_in {A B} (f g : A -> option B) (l : list A) :
  (forall x, x ∈ l -> f x = g x) -> omap f l = omap g l.
Proof.
  induction l as [|x l IH]; intros H; [done|]. cbn [omap list_omap].
  rewrite (H x) by (by left). rewrite IH; [done|]. intros; apply H; by right.
Qed.

Lemma omap_fmap_compose {A B C} (f : A -> B) (g : B -> option C) (l : list A) :
  omap g (f <$> l) = omap (g ∘ f) l.
Proof. induction l as [|x l IH]; [done|]. cbn. by rewrite IH. Qed.

Lemma omap_snoc {A B} (f : A -> option B) (l : list A) (x : A) :
  omap f (l ++ [x]) = omap f l ++ omap f [x].
Proof.
  induction l as [|y l IH]; [done|]. cbn [app omap list_omap].
  rewrite IH. by destruct (f y).
Qed.

(** The consecutive pairs, by position. *)
Lemma consecutive_pairs_lookup {A} (t : list A) :
  consecutive_pairs t
  = omap (fun i => a ← t !! i; b ← t !! (i + 1)%nat; Some (a, b))
         (seq 0 (length t - 1)).
Proof.
  induction t as [|a [|b r] IH]; [done..|].
  change (consecutive_pairs (a :: b :: r)) with ((a, b) :: consecutive_pairs (b :: r)).
  rewrite IH. cbn [length]. rewrite !Nat.sub_succ, !Nat.sub_0_r.
  cbn [seq omap list_omap lookup list_lookup mbind option_bind Nat.add].
  f_equal. rewrite <- fmap_S_seq, omap_fmap_compose. by apply omap_ext_in.
Qed.

(** The loop over [range(len(tour))] with the index [(i + 1) % len(tour)]
    visits the consecutive pairs and then the wrap-around pair. *)
Lemma tour_steps_closed (t : list location) : tour_steps t = closed_tour_steps t.
Proof.
  unfold tour_steps, closed_tour_steps. destruct t as [|first r] eqn:Et; [done|].
  rewrite <- Et. assert (length t = Datatypes.S (length r)) as Hlen by (by rewrite Et).
  rewrite Hlen, seq_S, omap_snoc. cbn [Nat.add]. f_equal.
  - rewrite consecutive_pairs_lookup, Hlen, Nat.sub_succ, Nat.sub_0_r.
    apply omap_ext_in. intros i Hi%elem_of_seq.
    by rewrite Nat.mod_small by lia.
  - cbn [omap list_omap].
    replace (length r + 1)%nat with (Datatypes.S (length r)) by lia.
    rewrite Nat.Div0.mod_same.
    assert (t !! length r = last t) as ->.
    { rewrite last_lookup, Hlen. done. }
    assert (t !! 0%nat = Some first) as -> by (by rewrite Et).
    destruct (last t) as [lst|] eqn:El; [done|].
    apply last_None in El. by rewrite Et in El.
Qed.

Lemma hits_steps (i j : Z) (l : list (location * location)) :
  foldr Z.add 0 (hits (i, j) <$> l)
  = Z.of_nat (length (filter (fun s => s = (Some i, Some j)) l)
              + length (filter (fun s => s = (Some j, Some i)) l)).
Proof.
  induction l as [|[a b] l IH]; [done|].
  cbn [fmap list_fmap foldr]. rewrite IH, !filter_cons. unfold hits.
  cbn [fst snd].
  destruct a as [x|], b as [y|]; cbn [edge];
    repeat case_decide; simplify_eq; cbn [length]; lia.
Qed.

Lemma traversals_steps_between (t : list location) (i j : Z) :
  traversals t (i, j) = Z.of_nat (steps_between t i j).
Proof. unfold traversals, steps_between. by rewrite tour_steps_closed, hits_steps. Qed.

Lemma batch_deposit_between (i j : Z) (batch : list (list location * num)) :
  batch_deposit (i, j) batch = deposit_between i j batch.
Proof.
  unfold batch_deposit, deposit_between. f_equal. apply list_fmap_ext.
  intros _ [t L] _. unfold tour_deposit. cbn [fst snd].
  by rewrite traversals_steps_between.
Qed.

Lemma steps_in_map_tour_on_map (m : gmap (Z * Z) Q) (t : list location) :
  steps_in_map m t <-> tour_on_map m t.
Proof. unfold steps_in_map, tour_on_map. by rewrite tour_steps_closed. Qed.

(** ** Claims about the pheromone update *)

(** C2, as the code has it.  When every tour of the batch has a positive
    length and steps only over edges that are keys of the map, the update
    succeeds, keeps the keys, and the new trail of every ordered edge
    [(i, j)] is [(1 - rho)] times the old one plus, for every tour of
    length [L] and every step of it (a consecutive pair or the wrap-around
    pair) between [i] and [j] in either direction, [1 / L]: evaporation
    never touches a deposit of the same call, and the two directions of an
    edge receive the same deposit.  The steps are those of
    [closed_tour_steps], listed without reference to the loop of the
    code. *)
Theorem update_pheromone_map_trails (env : Environment)
    (tours : list (list location)) (lengths : list num) :
  Forall num_pos lengths ->
  Forall (tour_on_map (pheromone_map env)) tours ->
  exists env' : Environment,
    update_pheromone_map env tours lengths = (env', Ok tt)
    ∧ (forall i j : Z,
         pheromone_map env !! (i, j) = None -> pheromone_map env' !! (i, j) = None)
    ∧ (forall (i j : Z) (v : Q),
         pheromone_map env !! (i, j) = Some v ->
         exists v' : Q,
           pheromone_map env' !! (i, j) = Some v'
           ∧ (v' == (1 - rho env) * v + deposit_between i j (zip tours lengths))%Q)
    ∧ (forall i j : Z,
         deposit_between i j (zip tours lengths)
         = deposit_between j i (zip tours lengths)).
Proof.
  intros Hpos Hkeys. unfold update_pheromone_map.
  destruct (batch_bumped (evaporate (rho env) (pheromone_map env)) (zip tours lengths))
    as (m' & E & B).
  { eapply Forall_impl; [apply (Forall_zip_both _ _ _ _ Hkeys Hpos)|].
    intros [t L] [? ?]. split; [done|].
    by apply steps_in_map_evaporate, steps_in_map_tour_on_map. }
  rewrite E. eexists. split; [done|]. cbn [pheromone_map with_pheromone_map].
  split_and!.
  - intros i j Hn. specialize (B (i, j)).
    by rewrite evaporate_lookup, Hn in B.
  - intros i j v Hv. specialize (B (i, j)).
    rewrite evaporate_lookup, Hv in B. by rewrite <- batch_deposit_between.
  - intros i j. unfold deposit_between. f_equal. apply list_fmap_ext.
    intros _ [t L] _. unfold steps_between. by rewrite Nat.add_comm.
Qed.

Lemma update_pheromone_map_trails_witness :
  exists env' : Environment,
    update_pheromone_map two_cities [there_and_back] [Fin 4] = (env', Ok tt)
    ∧ (forall i j : Z,
         pheromone_map two_cities !! (i, j) = None
         -> pheromone_map env' !! (i, j) = None)
    ∧ (forall (i j : Z) (v : Q),
         pheromone_map two_cities !! (i, j) = Some v ->
         exists v' : Q,
           pheromone_map env' !! (i, j) = Some v'
           ∧ (v' == (1 - rho two_cities) * v
                    + deposit_between i j (zip [there_and_back] [Fin 4]))%Q)
    ∧ (forall i j : Z,
         deposit_between i j (zip [there_and_back] [Fin 4])
         = deposit_between j i (zip [there_and_back] [Fin 4])).
Proof.
  apply (update_pheromone_map_trails two_cities [there_and_back] [Fin 4]).
  - repeat constructor.
  - repeat constructor. intros a b Hab.
    apply list_elem_of_In in Hab. cbn in Hab.
    destruct Hab as [[= <- <-]|[[= <- <-]|[]]]; eexists _, _;
      (split_and!; [done|done|by eexists|by eexists]).
Defined.

(** The two-city tour of the example steps over its only edge twice, out
    and back: the deposit on it is [2 * 1/4]. *)
Example there_and_back_deposit :
  closed_tour_steps there_and_back = [(Some 1, Some 2); (Some 2, Some 1)]
  ∧ steps_between there_and_back 1 2 = 2%nat
  ∧ (deposit_between 1 2 (zip [there_and_back] [Fin 4]) == 1 # 2)%Q.
Proof. split_and!; by vm_compute. Qed.

(** C2 as stated fails on a two-city tour, which steps over its only edge
    twice: with trail 1, [rho = 1/2] and length 4 the new trail is
    [1/2 + 2 * 1/4], not [1/2 + 1/4]. *)
Lemma update_pheromone_map_once_per_tour_counterexample :
  (update_pheromone_map two_cities [there_and_back] [Fin 4]).2 = Ok tt
  ∧ pheromone_map two_cities !! (1, 2) = Some 1%Q
  ∧ exists v' : Q,
      pheromone_map (update_pheromone_map two_cities [there_and_back] [Fin 4]).1
        !! (1, 2) = Some v'
      ∧ (v' == 1)%Q
      ∧ ¬ (v' == (1 - rho two_cities) * 1
                 + deposit_once_between 1 2 (zip [there_and_back] [Fin 4]))%Q.
Proof.
  split; [by vm_compute|]. split; [by vm_compute|].
  eexists. split; [vm_compute; reflexivity|]. split; [by vm_compute|].
  vm_compute. discriminate.
Qed.

(** C7, as the code has it.  A tour of length 0 makes the update raise
    Python's [ZeroDivisionError] at the division [1.0 / tour_length]
    itself; nothing of that tour is written, but the map has by then been
    evaporated and has received the deposits of the tours before it. *)
Theorem update_zero_length_raises (env : Environment)
    (pre_tours : list (list location)) (pre_lengths : list num)
    (tour0 : list location)
    (post_tours : list (list location)) (post_lengths : list num)
    (m1 : gmap (Z * Z) Q) :
  length pre_tours = length pre_lengths ->
  for_each_in_place (zip pre_tours pre_lengths) deposit_tour
    (evaporate (rho env) (pheromone_map env)) = (m1, Ok tt) ->
  update_pheromone_map env (pre_tours ++ tour0 :: post_tours)
                           (pre_lengths ++ Fin 0 :: post_lengths)
  = (with_pheromone_map env m1, Raise ZeroDivisionError).
Proof.
  intros Hlen Hpre. unfold update_pheromone_map.
  rewrite zip_with_app by done. rewrite for_each_in_place_app, Hpre.
  reflexivity.
Qed.

Lemma update_zero_length_raises_witness :
  update_pheromone_map two_cities ([there_and_back] ++ [Some 2; Some 1] :: [])
                                  ([Fin 4] ++ Fin 0 :: [])
  = (with_pheromone_map two_cities
       (for_each_in_place (zip [there_and_back] [Fin 4]) deposit_tour
          (evaporate (rho two_cities) (pheromone_map two_cities))).1,
     Raise ZeroDivisionError).
Proof.
  apply (update_zero_length_raises two_cities [there_and_back] [Fin 4]
           [Some 2; Some 1] [] []).
  - reflexivity.
  - vm_compute. reflexivity.
Defined.

(** C7 as stated fails: no guard stops the call before the map is
    touched.  The exception is the one of the division, and it leaves the
    map evaporated. *)
Lemma update_zero_length_unguarded_counterexample :
  (update_pheromone_map two_cities [there_and_back] [Fin 0]).2
  = Raise ZeroDivisionError
  ∧ pheromone_map two_cities !! (1, 2) = Some 1%Q
  ∧ pheromone_map (update_pheromone_map two_cities [there_and_back] [Fin 0]).1
      !! (1, 2) = Some (1 # 2)%Q.
Proof. by vm_compute. Qed.

(** ** Int-or-inf arithmetic *)

Lemma num_ltb_trans_le (a b c : num) :
  num_ltb b a = false -> num_ltb c b = false -> num_ltb c a = false.
Proof.
  destruct a, b, c; cbn; rewrite ?Z.ltb_ge; try done; lia.
Qed.

Lemma num_ltb_irrefl (a : num) : num_ltb a a = false.
Proof. destruct a; cbn; [apply Z.ltb_irrefl|done]. Qed.

Lemma num_ltb_false_of_true (a b : num) : num_ltb a b = true -> num_ltb b a = false.
Proof. destruct a, b; cbn; rewrite ?Z.ltb_lt, ?Z.ltb_ge; try done; lia. Qed.

(** ** [min] with a key *)

Lemma min_from_spec (key : Z -> num) (l : list Z) (best : Z) :
  min_from key best l ∈ best :: l
  ∧ forall y, y ∈ best :: l -> num_ltb (key y) (key (min_from key best l)) = false.
Proof.
  revert best. induction l as [|x l IH]; intros best; cbn [min_from].
  - split; [by left|]. intros y ->%list_elem_of_singleton. apply num_ltb_irrefl.
  - set (b' := if num_ltb (key x) (key best) then x else best).
    destruct (IH b') as [Hin Hmin]. split.
    + apply elem_of_cons in Hin as [->|Hin].
      * unfold b'. destruct (num_ltb _ _); [right; by left|by left].
      * right; by right.
    + assert (num_ltb (key b') (key (min_from key b' l)) = false) as Hb'
        by (apply Hmin; by left).
      intros y [->|[->|Hy]%elem_of_cons]%elem_of_cons.
      * eapply num_ltb_trans_le; [exact Hb'|].
        unfold b'. destruct (num_ltb (key x) (key best)) eqn:E.
        -- by apply num_ltb_false_of_true.
        -- apply num_ltb_irrefl.
      * eapply num_ltb_trans_le; [exact Hb'|].
        unfold b'. destruct (num_ltb (key x) (key best)) eqn:E.
        -- apply num_ltb_irrefl.
        -- done.
      * apply Hmin. by right.
Qed.

Lemma py_min_spec (key : Z -> num) (l : list Z) :
  l ≠ [] ->
  exists x, py_min key l = Ok x ∧ x ∈ l
            ∧ forall y, y ∈ l -> num_ltb (key y) (key x) = false.
Proof.
  destruct l as [|b l]; [done|]. intros _. eexists. split; [done|].
  apply min_from_spec.
Qed.

(** ** Sets kept as lists *)

Lemma filter_ne_length (x : Z) (s : list Z) :
  x ∈ s -> (length (filter (fun y => y ≠ x) s) < length s)%nat.
Proof.
  induction s as [|y s IH]; [by intros ?%elem_of_nil|].
  intros Hx. rewrite filter_cons. case_decide as Hy.
  - cbn [length]. apply elem_of_cons in Hx as [->|Hx]; [done|].
    specialize (IH Hx). lia.
  - pose proof (length_filter (fun y => y ≠ x) s). cbn [length]. lia.
Qed.

Lemma filter_ne_elem (x z : Z) (s : list Z) :
  z ∈ filter (fun y => y ≠ x) s <-> z ∈ s ∧ z ≠ x.
Proof. rewrite list_elem_of_filter. tauto. Qed.

Lemma filter_ne_to_set (x : Z) (s : list Z) :
  (list_to_set (filter (fun y => y ≠ x) s) : gset Z) = list_to_set s ∖ {[x]}.
Proof.
  apply set_eq. intros z.
  rewrite elem_of_list_to_set, filter_ne_elem, elem_of_difference,
    elem_of_list_to_set, elem_of_singleton. done.
Qed.

Lemma filter_ne_all_same (c : Z) (s : list Z) :
  (forall x, x ∈ s -> x = c) -> filter (fun y => y ≠ c) s = [].
Proof.
  induction s as [|x s IH]; intros Hall; [done|].
  rewrite filter_cons, decide_False.
  - apply IH. intros y Hy. apply Hall. by right.
  - intros Hx. apply Hx, Hall. by left.
Qed.


(** ** The nearest-neighbour loop *)

Lemma nn_loop_lower_bound (env : Environment) (fuel : nat) :
  map_Forall (fun _ t => 0 <= t) (distances env) ->
  forall cur unv acc last L,
    nn_loop fuel env cur unv acc = Ok (last, L) -> acc <= L.
Proof.
  intros Hd. induction fuel as [|fuel IH]; intros cur unv acc lst L.
  - destruct unv; cbn [nn_loop]; [|done]. intros [= _ <-]. lia.
  - destruct unv as [|u unv]; cbn [nn_loop]; [intros [= _ <-]; lia|].
    destruct (py_min _ _) as [x| |]; cbn [obind]; [|done..].
    unfold getitem. destruct (distances env !! (cur, x)) as [t|] eqn:Et;
      cbn [obind]; [|done].
    destruct (set_remove _ _) as [unv'| |]; cbn [obind]; [|done..].
    intros H%IH. pose proof (Hd _ _ Et) as Ht. cbn in Ht. lia.
Qed.

Section NearestNeighbour.

Variable env : Environment.
Hypothesis all_pairs : forall a b,
  a ∈ nodes env -> b ∈ nodes env -> a ≠ b ->
  exists t, distances env !! (a, b) = Some t ∧ 0 <= t.

Lemma get_distance_pair (a b : Z) (t : Z) :
  distances env !! (a, b) = Some t -> get_distance env (Some a) (Some b) = Fin t.
Proof. intros E. unfold get_distance. cbn [edge mbind option_bind]. by rewrite E. Qed.

Lemma nn_loop_greedy (fuel : nat) :
  forall (cur : Z) (unv : list Z) (acc : Z),
    (length unv <= fuel)%nat -> cur ∈ nodes env ->
    (forall x, x ∈ unv -> x ∈ nodes env) -> cur ∉ unv ->
    exists (rest : list Z) (L : Z),
      nn_loop fuel env cur unv acc = Ok (default cur (last rest), acc + L)
      ∧ greedy_path env cur (list_to_set unv) rest
      ∧ path_length env (Some <$> cur :: rest) = Fin L
      ∧ 0 <= L
      ∧ NoDup rest
      ∧ (forall x, x ∈ rest <-> x ∈ unv).
Proof.
  induction fuel as [|fuel IH]; intros cur unv acc Hlen Hcur Hunv Hfresh.
  - destruct unv; [|cbn in Hlen; lia]. exists [], 0. cbn [nn_loop last default].
    rewrite Z.add_0_r. split_and!; [done|constructor|done|done|constructor|done].
  - destruct unv as [|u unv'] eqn:Eu.
    { exists [], 0. cbn [nn_loop last default].
      rewrite Z.add_0_r. split_and!; [done|constructor|done|done|constructor|done]. }
    rewrite <- Eu in *. assert (unv ≠ []) as Hne by (by rewrite Eu).
    destruct (py_min_spec (distances_get env cur) unv Hne) as (x & Emin & Hx & Hmin).
    assert (x ≠ cur) as Hxc by (intros ->; done).
    destruct (all_pairs cur x Hcur (Hunv x Hx) (not_eq_sym Hxc)) as (t & Et & Ht).
    destruct (IH x (filter (fun y => y ≠ x) unv) (acc + t)) as (rest & L & E & G & P & HL & ND & Hel).
    { pose proof (filter_ne_length x unv Hx). lia. }
    { by apply Hunv. }
    { intros y [Hy _]%filter_ne_elem. by apply Hunv. }
    { intros [_ ?]%filter_ne_elem. done. }
    exists (x :: rest), (t + L). split_and!.
    + rewrite Eu at 1. cbn [nn_loop]. rewrite <- Eu. rewrite Emin. cbn [obind].
      unfold getitem. rewrite Et. cbn [obind].
      unfold set_remove. rewrite decide_True by done. cbn [obind].
      rewrite E, last_cons. destruct (last rest); cbn [default]; do 2 f_equal; lia.
    + eapply greedy_move.
      * split; [by apply elem_of_list_to_set|]. exists t. split; [done|].
        intros y Hy%elem_of_list_to_set.
        assert (cur ≠ y) as Hcy by (intros ->; done).
        destruct (all_pairs cur y Hcur (Hunv y Hy) Hcy) as (dy & Ey & _).
        exists dy. split; [done|]. specialize (Hmin y Hy).
        unfold distances_get in Hmin. rewrite Ey, Et in Hmin. cbn in Hmin.
        by apply Z.ltb_ge in Hmin.
      * by rewrite <- filter_ne_to_set.
    + cbn [fmap list_fmap path_length] in *.
      change (list_fmap Z (option Z) Some rest) with (Some <$> rest) in *.
      rewrite (get_distance_pair _ _ _ Et).
      cbn [fmap list_fmap] in P. rewrite P. done.
    + lia.
    + constructor; [|done]. rewrite Hel. intros [_ ?]%filter_ne_elem. done.
    + intros y. rewrite elem_of_cons, Hel, filter_ne_elem.
      destruct (decide (y = x)) as [->|]; [tauto|]. tauto.
Qed.

End NearestNeighbour.

(** Paths and greedy tours only read the distance table. *)
Lemma get_distance_ext (env env' : Environment) (a b : location) :
  distances env = distances env' -> get_distance env a b = get_distance env' a b.
Proof. intros H. unfold get_distance. by rewrite H. Qed.

Lemma path_length_ext (env env' : Environment) (l : list location) :
  distances env = distances env' -> path_length env l = path_length env' l.
Proof.
  intros H. induction l as [|a [|b l] IH]; [done..|].
  cbn [path_length] in *. by rewrite IH, (get_distance_ext env env').
Qed.

Lemma closed_length_ext (env env' : Environment) (l : list location) :
  distances env = distances env' -> closed_length env l = closed_length env' l.
Proof.
  intros H. destruct l as [|a l]; [done|]. unfold closed_length.
  by rewrite (path_length_ext env env'), (get_distance_ext env env').
Qed.

Lemma greedy_path_ext (env env' : Environment) (cur : Z) (U : gset Z) (rest : list Z) :
  distances env = distances env' ->
  greedy_path env cur U rest -> greedy_path env' cur U rest.
Proof.
  intros H. induction 1 as [cur|cur U x rest Hn _ IH]; [constructor|].
  eapply greedy_move; [|done]. unfold nearest in *. by rewrite <- H.
Qed.

Lemma fill_pheromone_lookup (ns : list Z) (v : Q) (i j : Z) :
  fill_pheromone ns v ∅ !! (i, j)
  = if decide (i ∈ ns ∧ j ∈ ns ∧ i ≠ j) then Some v else None.
Proof.
  change (fill_pheromone ns v ∅) with (fill_pairs (fun _ _ => v) ns ns ∅).
  by rewrite fill_pairs_lookup, lookup_empty.
Qed.

(** ** The nearest-neighbour tour of the initialisation *)

(** With a distance for every two different nodes, none negative, and at
    least two nodes, the loop of [initialize_pheromone_map] builds a
    greedy tour and returns its length, closing edge included. *)
Lemma nn_tour_length_greedy (set_iter : list Z -> list Z) (env : Environment) :
  (forall a b, a ∈ nodes env -> b ∈ nodes env -> a ≠ b ->
     exists t, distances env !! (a, b) = Some t ∧ 0 <= t) ->
  NoDup (nodes env) ->
  (forall x, x ∈ set_iter (nodes env) <-> x ∈ nodes env) ->
  (2 <= length (nodes env))%nat ->
  exists (nn : list Z) (L : Z),
    nn_tour_length set_iter env = Ok L
    ∧ nearest_neighbour_tour env nn
    ∧ nn ≡ₚ nodes env
    ∧ closed_length env (Some <$> nn) = Fin L
    ∧ 0 <= L
    ∧ ((forall a b t, distances env !! (a, b) = Some t -> 0 < t) -> 0 < L).
Proof.
  intros Hpairs Hnd Hset Hn.
  assert (exists start second others, nodes env = start :: second :: others)
    as (start & second & others & Ens).
  { destruct (nodes env) as [|? [|? ?]]; cbn in Hn; try lia; eauto. }
  assert (start ∈ nodes env) as Hstart by (rewrite Ens; by left).
  assert (second ∈ nodes env) as Hsecond by (rewrite Ens; right; by left).
  assert (second ≠ start) as Hss.
  { rewrite Ens in Hnd. apply NoDup_cons in Hnd as [Hni _].
    intros ->. apply Hni. by left. }
  set (unv := filter (fun y => y ≠ start) (set_iter (nodes env))).
  destruct (nn_loop_greedy env Hpairs (length unv) start unv 0)
    as (rest & L & Eloop & G & P & HL & ND & Hel); [lia|exact Hstart|..].
  { intros x [Hx _]%filter_ne_elem. by apply Hset. }
  { intros [_ ?]%filter_ne_elem. done. }
  assert (second ∈ rest) as Hsr.
  { apply Hel, filter_ne_elem. split; [by apply Hset|done]. }
  destruct (last rest) as [lst|] eqn:Elast;
    [|apply last_None in Elast; subst rest; by apply elem_of_nil in Hsr].
  assert (lst ∈ rest) as Hlr.
  { apply last_Some in Elast as [l' ->]. apply elem_of_app. right. by left. }
  apply Hel, filter_ne_elem in Hlr as [Hln%Hset Hls].
  destruct (Hpairs lst start Hln Hstart Hls) as (tc & Etc & Htc).
  cbn [default from_option id] in Eloop.
  exists (start :: rest), (L + tc). split_and!.
  - unfold nn_tour_length. rewrite Ens at 1. cbn [obind].
    unfold set_remove. rewrite decide_True by (by apply Hset). cbn [obind].
    fold unv. rewrite Eloop. cbn [obind]. unfold getitem. rewrite Etc.
    cbn [obind]. f_equal.
  - exists start, rest. split_and!; [done|by rewrite Ens|].
    replace (list_to_set (nodes env) ∖ {[start]} : gset Z)
      with (list_to_set unv : gset Z); [done|].
    apply set_eq. intros z. unfold unv.
    rewrite elem_of_list_to_set, filter_ne_elem, elem_of_difference,
      elem_of_list_to_set, elem_of_singleton, Hset. done.
  - apply NoDup_Permutation; [|done|].
    + constructor; [|done]. rewrite Hel. intros [_ ?]%filter_ne_elem. done.
    + intros z. rewrite elem_of_cons, Hel. unfold unv. rewrite filter_ne_elem, Hset.
      destruct (decide (z = start)) as [->|]; [tauto|]. tauto.
  - unfold closed_length. rewrite P. cbn [fmap list_fmap].
    change (list_fmap Z (option Z) Some rest) with (Some <$> rest).
    rewrite last_cons, fmap_last, Elast.
    cbn [fmap option_fmap option_map default from_option id].
    by rewrite (get_distance_pair env _ _ _ Etc).
  - lia.
  - intros Hpos. specialize (Hpos _ _ _ Etc). lia.
Qed.

(** With fewer than two nodes the tour cannot be closed. *)
Lemma nn_tour_length_too_few (set_iter : list Z -> list Z) (env : Environment) :
  (forall a, distances env !! (a, a) = None) ->
  (forall x, x ∈ set_iter (nodes env) <-> x ∈ nodes env) ->
  (length (nodes env) < 2)%nat ->
  forall L, nn_tour_length set_iter env ≠ Ok L.
Proof.
  intros Hdiag Hset Hn L. unfold nn_tour_length.
  destruct (nodes env) as [|c [|? ?]] eqn:Ens; cbn in Hn; [done| |lia].
  cbn [obind]. unfold set_remove.
  rewrite decide_True by (apply Hset; by left). cbn [obind].
  rewrite (filter_ne_all_same c (set_iter [c]))
    by (by intros x Hx%Hset%list_elem_of_singleton).
  cbn [length nn_loop obind]. unfold getitem. by rewrite Hdiag.
Qed.

(** Two cities are at a positive distance when the square root taken for
    them is positive. *)
Lemma att_distance_pos (fsqrt : Q -> Q) (c1 c2 : Q * Q) :
  (0 < fsqrt (((c1.1 - c2.1) ^ 2 + (c1.2 - c2.2) ^ 2) / 10))%Q ->
  0 < att_distance fsqrt c1 c2.
Proof.
  intros Hs. destruct c1 as [x1 y1], c2 as [x2 y2]. cbn [fst snd] in Hs.
  by apply att_round_pos.
Qed.

(** ** Claims about the initial trail *)

(** C6. Take an instance that lists every city once, and a square root
    that is never negative.  Whenever [Environment.__init__] succeeds,
    every ordered pair of different cities carries the same trail
    [tau0 = 1 / (n * L_nn) > 0], and no other pair has a trail: [n] is
    the number of cities and [L_nn > 0] the length, closing edge
    included, of a tour that starts at the first city and moves, as long
    as a city is unvisited, to one whose distance in the table from the
    current city is smallest.  It does succeed when there are at least
    two cities and the square root taken for any two of them,
    [sqrt (((x1 - x2)^2 + (y1 - y2)^2) / 10)], is positive. *)
Theorem initial_trail_uniform (fsqrt : Q -> Q) (set_iter : list Z -> list Z)
    (rho0 : Q) (p : problem) :
  NoDup (get_nodes p) ->
  (forall x, x ∈ set_iter (get_nodes p) <-> x ∈ get_nodes p) ->
  (forall q, 0 <= fsqrt q)%Q ->
  (forall env : Environment,
     Environment_init fsqrt set_iter rho0 p = Ok env ->
     exists (nn : list Z) (L : Z),
       nearest_neighbour_tour env nn
       ∧ nn ≡ₚ get_nodes p
       ∧ closed_length env (Some <$> nn) = Fin L
       ∧ 0 < L
       ∧ (0 < 1 / inject_Z (Z.of_nat (length (get_nodes p)) * L))%Q
       ∧ forall i j : Z,
           pheromone_map env !! (i, j)
           = if decide (i ∈ get_nodes p ∧ j ∈ get_nodes p ∧ i ≠ j)
             then Some (1 / inject_Z (Z.of_nat (length (get_nodes p)) * L))%Q
             else None)
  ∧ ((2 <= length (get_nodes p))%nat ->
     (forall i j, i ∈ get_nodes p -> j ∈ get_nodes p -> i ≠ j ->
        (0 < fsqrt ((((node_coords p i).1 - (node_coords p j).1) ^ 2
                     + ((node_coords p i).2 - (node_coords p j).2) ^ 2) / 10))%Q) ->
     exists env : Environment, Environment_init fsqrt set_iter rho0 p = Ok env).
Proof.
  intros Hnd Hset Hsqrt.
  set (env0 := {| rho := rho0; nodes := get_nodes p;
                  coordinates := load_coordinates p (get_nodes p);
                  distances := distance_table fsqrt p; pheromone_map := ∅ |}).
  assert (forall a b, a ∈ nodes env0 -> b ∈ nodes env0 -> a ≠ b ->
            exists t, distances env0 !! (a, b) = Some t ∧ 0 <= t) as Hpairs.
  { intros a b Ha Hb Hab. cbn [distances nodes env0] in *.
    rewrite distance_table_lookup, decide_True by done.
    eexists. split; [done|]. apply att_round_nonneg. unfold att_r.
    destruct (node_coords p a), (node_coords p b). apply Hsqrt. }
  set (n := Z.of_nat (length (get_nodes p))).
  split.
  - intros env. unfold Environment_init. rewrite compute_distances_ok.
    cbn [obind]. fold env0. unfold initialize_pheromone_map.
    destruct (nn_tour_length set_iter env0) as [L0| |] eqn:Enn; cbn [obind];
      [|done..].
    destruct (decide (2 <= length (nodes env0))%nat) as [Hn|Hn]; cycle 1.
    { exfalso. apply (nn_tour_length_too_few set_iter env0) with (L := L0);
        [|done|lia|done].
      intros a. cbn [distances env0]. rewrite distance_table_lookup.
      rewrite decide_False; [done|]. by intros (_ & _ & ?). }
    destruct (nn_tour_length_greedy set_iter env0 Hpairs Hnd Hset Hn)
      as (nn & L & Enn' & G & Hperm & Hlen & HL & _).
    rewrite Enn in Enn'. injection Enn' as ->.
    cbn [nodes env0]. fold n.
    destruct (decide (n * L = 0)) as [E0|Hne]; [by rewrite E0|].
    assert (0 < n * L) as Hprod by (subst n; nia).
    destruct (one_over_pos (Fin (n * L))) as [-> _].
    { unfold num_pos. cbn. by apply Z.ltb_lt. }
    cbn [obind]. intros [= <-]. exists nn, L. split_and!.
    + destruct G as (start & rest & -> & Hhead & G). exists start, rest.
      split_and!; [done|done|]. by apply (greedy_path_ext env0).
    + done.
    + by rewrite <- Hlen; apply closed_length_ext.
    + subst n. nia.
    + apply Qlt_shift_div_l; [by rewrite (Zlt_Qlt 0) in Hprod|lra].
    + intros i j. cbn [pheromone_map with_pheromone_map].
      by rewrite fill_pheromone_lookup.
  - intros Hn Hplaces.
    destruct (nn_tour_length_greedy set_iter env0 Hpairs Hnd Hset Hn)
      as (nn & L & Enn & _ & _ & _ & _ & HL).
    assert (0 < L) as HLpos.
    { apply HL. intros a b t. cbn [distances env0].
      rewrite distance_table_lookup. case_decide as Hab; [|done].
      destruct Hab as (Ha & Hb & Hab). intros [= <-].
      by apply att_distance_pos, Hplaces. }
    assert (0 < n * L) as Hprod by (subst n; cbn [nodes env0] in Hn; nia).
    unfold Environment_init. rewrite compute_distances_ok. cbn [obind].
    fold env0. unfold initialize_pheromone_map. rewrite Enn. cbn [obind].
    cbn [nodes env0]. fold n.
    destruct (one_over_pos (Fin (n * L))) as [-> _].
    { unfold num_pos. cbn. by apply Z.ltb_lt. }
    cbn [obind]. by eexists.
Qed.

(** On [line_cities] the distances from city 1 are 32, 4 and 16: the
    greedy tour is 1, 3, 4, 2, of length 4 + 13 + 16 + 32 = 65, and the
    initial trail is 1/260.  (The tour 1, 2, 3, 4 has length 90.) *)
Lemma initial_trail_uniform_witness :
  exists (env : Environment) (nn : list Z),
    Environment_init dyadic_sqrt (fun l => l) (1 # 2) line_cities = Ok env
    ∧ nearest_neighbour_tour env nn
    ∧ nn ≡ₚ get_nodes line_cities
    ∧ closed_length env (Some <$> nn) = Fin 65
    ∧ forall i j : Z,
        pheromone_map env !! (i, j)
        = if decide (i ∈ get_nodes line_cities ∧ j ∈ get_nodes line_cities ∧ i ≠ j)
          then Some (1 / inject_Z (4 * 65))%Q
          else None.
Proof.
  destruct (initial_trail_uniform dyadic_sqrt (fun l => l) (1 # 2) line_cities)
    as [Hinit Hruns].
  - cbn. repeat (constructor; [rewrite list_elem_of_In; cbn; lia|]). constructor.
  - done.
  - exact dyadic_sqrt_nonneg.
  - destruct Hruns as [env E].
    + cbn. lia.
    + intros i j Hi%list_elem_of_In Hj%list_elem_of_In Hne. cbn in Hi, Hj.
      destruct Hi as [<-|[<-|[<-|[<-|[]]]]], Hj as [<-|[<-|[<-|[<-|[]]]]];
        first [by vm_compute | by destruct Hne].
    + destruct (Hinit env E) as (nn & L & G & Hperm & Hlen & HL & _ & Hmap).
      assert (L = 65) as ->.
      { pose proof (Hmap 1 2) as H12.
        rewrite decide_True in H12
          by (split_and!; [apply list_elem_of_In; cbn; tauto..|lia]).
        assert (match Environment_init dyadic_sqrt (fun l => l) (1 # 2) line_cities with
                | Ok e => pheromone_map e !! (1, 2)
                | _ => None
                end = Some (1 # 260)%Q) as Hc by (by vm_compute).
        rewrite E, H12 in Hc. destruct L as [|L|L]; [lia| |lia].
        cbn in Hc. injection Hc as Hc. lia. }
      exists env, nn. split; [exact E|]. split; [exact G|].
      split; [exact Hperm|]. split; [exact Hlen|]. exact Hmap.
Defined.

(** The four-city square: nearest-neighbour length 4, initial trail 1/16. *)
Example unit_square_initial_trail :
  exists env : Environment,
    Environment_init dyadic_sqrt (fun l => l) (1 # 2) unit_square = Ok env
    ∧ nn_tour_length (fun l => l) env = Ok 4
    ∧ pheromone_map env !! (1, 3) = Some (1 / inject_Z (4 * 4))%Q.
Proof. eexists. split_and!; vm_compute; reflexivity. Qed.

(** The four cities on a line: the table, the length 65 the loop
    computes and the trail 1/260. *)
Example line_cities_initial_trail :
  exists env : Environment,
    Environment_init dyadic_sqrt (fun l => l) (1 # 2) line_cities = Ok env
    ∧ distances env !! (1, 2) = Some 32 ∧ distances env !! (1, 3) = Some 4
    ∧ distances env !! (1, 4) = Some 16 ∧ distances env !! (3, 4) = Some 13
    ∧ distances env !! (3, 2) = Some 29 ∧ distances env !! (4, 2) = Some 16
    ∧ closed_length env [Some 1; Some 3; Some 4; Some 2] = Fin 65
    ∧ closed_length env [Some 1; Some 2; Some 3; Some 4] = Fin 90
    ∧ nn_tour_length (fun l => l) env = Ok 65
    ∧ pheromone_map env !! (2, 4) = Some (1 / inject_Z (4 * 65))%Q.
Proof. eexists. split_and!; vm_compute; reflexivity. Qed.

(** ** Non-negative trails *)

Lemma distance_table_nonneg (fsqrt : Q -> Q) (p : problem) :
  (forall x, 0 <= fsqrt x)%Q ->
  map_Forall (fun _ t => 0 <= t) (distance_table fsqrt p).
Proof.
  intros Hs [i j] t. rewrite distance_table_lookup. case_decide; [|done].
  intros [= <-]. apply att_round_nonneg. unfold att_r.
  destruct (node_coords p i), (node_coords p j). apply Hs.
Qed.

Lemma Environment_init_nonneg (fsqrt : Q -> Q) (set_iter : list Z -> list Z)
    (rho0 : Q) (p : problem) (env : Environment) :
  (forall x, 0 <= fsqrt x)%Q ->
  Environment_init fsqrt set_iter rho0 p = Ok env ->
  nonneg_map (pheromone_map env).
Proof.
  intros Hs. unfold Environment_init. rewrite compute_distances_ok. cbn [obind].
  set (env0 := {| rho := rho0; nodes := get_nodes p;
                  coordinates := load_coordinates p (get_nodes p);
                  distances := distance_table fsqrt p; pheromone_map := ∅ |}).
  pose proof (distance_table_nonneg fsqrt p Hs) as Hd.
  unfold initialize_pheromone_map.
  destruct (nn_tour_length set_iter env0) as [L| |] eqn:Enn; cbn [obind]; [|done..].
  assert (0 <= L) as HL.
  { unfold nn_tour_length in Enn.
    destruct (nodes env0) as [|start ?]; cbn [obind] in Enn; [done|].
    destruct (set_remove _ _) as [unv| |]; cbn [obind] in Enn; [|done..].
    destruct (nn_loop _ _ _ _ _) as [[lst L0]| |] eqn:El; cbn [obind] in Enn; [|done..].
    apply (nn_loop_lower_bound env0 _ Hd) in El.
    unfold getitem in Enn.
    destruct (distances env0 !! (lst, start)) as [d|] eqn:Ed; cbn [obind] in Enn; [|done].
    apply Hd in Ed. cbn in Ed. injection Enn as <-. lia. }
  set (n := Z.of_nat (length (nodes env0))).
  destruct (decide (n * L = 0)) as [E0|Hne].
  { rewrite E0. done. }
  assert (0 < n * L) as Hprod by (subst n; nia).
  destruct (one_over_pos (Fin (n * L))) as [-> Hv].
  { unfold num_pos. cbn. by apply Z.ltb_lt. }
  cbn [obind]. intros [= <-]. cbn [pheromone_map with_pheromone_map env0].
  intros [i j] v. rewrite fill_pheromone_lookup. case_decide; [|done].
  by intros [= <-].
Qed.

Lemma evaporate_nonneg (r : Q) (m : gmap (Z * Z) Q) :
  (0 <= r <= 1)%Q -> nonneg_map m -> nonneg_map (evaporate r m).
Proof.
  intros Hr Hm k v. rewrite evaporate_lookup.
  destruct (m !! k) as [v0|] eqn:E; [|done]. intros [= <-].
  apply Hm in E. cbn in E. apply Qmult_le_0_compat; lra.
Qed.

Lemma add_pheromone_nonneg (k : option (Z * Z)) (d : Q) (m : gmap (Z * Z) Q) :
  (0 <= d)%Q -> nonneg_map m -> nonneg_map (add_pheromone k d m).1.
Proof.
  intros Hd Hm. unfold add_pheromone.
  destruct k as [k|]; cbn [mbind option_bind]; [|done].
  destruct (m !! k) as [v|] eqn:E; cbn [fmap option_fmap option_map fst]; [|done].
  apply map_Forall_insert_2; [|done]. apply Hm in E. cbn in E. lra.
Qed.

Lemma deposit_step_nonneg (d : Q) (step : location * location) (m : gmap (Z * Z) Q) :
  (0 <= d)%Q -> nonneg_map m -> nonneg_map (deposit_step d step m).1.
Proof.
  intros Hd Hm. destruct step as [a b]. unfold deposit_step, mbind_in_place.
  pose proof (add_pheromone_nonneg (edge a b) d m Hd Hm) as H1.
  destruct (add_pheromone (edge a b) d m) as [m1 [[]| |]]; [|done..].
  by apply add_pheromone_nonneg.
Qed.

Lemma deposit_tour_nonneg (tl : list location * num) (m : gmap (Z * Z) Q) :
  num_pos tl.2 -> nonneg_map m -> nonneg_map (deposit_tour tl m).1.
Proof.
  destruct tl as [t L]. intros HL Hm. unfold deposit_tour.
  destruct (one_over_pos L HL) as [-> Hv].
  apply (for_each_in_place_preserves nonneg_map); [|done].
  intros step m0 _. by apply deposit_step_nonneg.
Qed.

(** C5. Trails never become negative: the trails a successful
    construction of the environment sets are non-negative (the square
    root being non-negative), and from non-negative trails, with [rho] in
    [[0, 1]] (1 included) and positive tour lengths, every trail the
    update leaves behind is non-negative, however the call ends. *)
Theorem pheromone_nonneg_invariant :
  (forall (fsqrt : Q -> Q) (set_iter : list Z -> list Z) (rho0 : Q)
          (p : problem) (env : Environment),
     (forall x, 0 <= fsqrt x)%Q ->
     Environment_init fsqrt set_iter rho0 p = Ok env ->
     nonneg_map (pheromone_map env))
  ∧ (forall (env : Environment) (tours : list (list location)) (lengths : list num),
       nonneg_map (pheromone_map env) ->
       (0 <= rho env <= 1)%Q ->
       Forall num_pos lengths ->
       nonneg_map (pheromone_map (update_pheromone_map env tours lengths).1)).
Proof.
  split; [apply Environment_init_nonneg|].
  intros env tours lengths Hm Hr Hpos. unfold update_pheromone_map.
  pose proof (for_each_in_place_preserves nonneg_map (zip tours lengths)
                deposit_tour (evaporate (rho env) (pheromone_map env))) as H.
  destruct (for_each_in_place _ _ _) as [m' r]. cbn [fst pheromone_map with_pheromone_map].
  apply H; [|by apply evaporate_nonneg].
  intros [t L] m0 Hin Hm0. apply deposit_tour_nonneg; [|done].
  apply elem_of_zip_r in Hin. rewrite Forall_forall in Hpos. by apply Hpos.
Qed.

(** ** Sums of distances *)

Lemma num_add_assoc (a b c : num) : num_add (num_add a b) c = num_add a (num_add b c).
Proof. destruct a, b, c; cbn; try done. by rewrite Z.add_assoc. Qed.

Lemma num_add_0_l (a : num) : num_add (Fin 0) a = a.
Proof. by destruct a. Qed.

Lemma num_add_0_r (a : num) : num_add a (Fin 0) = a.
Proof. destruct a; cbn; [|done]. by rewrite Z.add_0_r. Qed.

Lemma path_length_snoc (env : Environment) (l : list location) (a b : location) :
  last l = Some a ->
  path_length env (l ++ [b]) = num_add (path_length env l) (get_distance env a b).
Proof.
  induction l as [|x [|y l] IH]; [done| |].
  - intros [= ->]. cbn [app path_length]. by rewrite num_add_0_r, num_add_0_l.
  - intros Hl. change (last (x :: y :: l)) with (last (y :: l)) in Hl.
    specialize (IH Hl). cbn [app path_length] in *.
    by rewrite IH, num_add_assoc.
Qed.

(** ** The sampler of the examples *)

Lemma take_turns_elem (l : list Z) (g : nat) (x : Z) (g' : nat) :
  take_turns l g = Ok (x, g') -> x ∈ l.
Proof.
  unfold take_turns. destruct (l !! _) as [y|] eqn:E; [|done].
  intros [= <- _]. by eapply list_elem_of_lookup_2.
Qed.

Lemma take_turns_draws (l : list Z) (g : nat) :
  l ≠ [] -> exists x g', take_turns l g = Ok (x, g').
Proof.
  intros Hl. unfold take_turns.
  destruct (lookup_lt_is_Some_2 l (g mod length l)%nat) as [x ->]; [|eauto].
  apply Nat.mod_upper_bound. destruct l; [done|]. cbn. lia.
Qed.

Lemma round_robin_spec : SamplerSpec round_robin.
Proof.
  split; cbn; eauto using take_turns_elem, take_turns_draws.
Qed.

(** ** The candidates of [select_path] *)

Lemma dict_set_keys (k : Z) (v : Q) (d : list (Z * Q)) (k' : Z) :
  k' ∈ (dict_set k v d).*1 <-> k' ∈ d.*1 ∨ k' = k.
Proof.
  unfold dict_set. case_decide as Hk.
  - assert (((fun kv : Z * Q => if decide (kv.1 = k) then (k, v) else kv) <$> d).*1
            = d.*1) as ->.
    { rewrite <- list_fmap_compose. apply list_fmap_ext. intros _ [k0 v0] _.
      cbn. case_decide; cbn; congruence. }
    split; [by left|]. intros [?| ->]; done.
  - rewrite fmap_app, elem_of_app. cbn. by rewrite list_elem_of_singleton.
Qed.

Lemma dict_set_fresh (k : Z) (v : Q) (d : list (Z * Q)) :
  k ∉ d.*1 -> dict_set k v d = d ++ [(k, v)].
Proof. intros Hk. unfold dict_set. by rewrite decide_False. Qed.

Section AntFacts.

Variable fpow : Q -> Q -> Q.
Variable S : Sampler.
Hypothesis sampler_ok : SamplerSpec S.
Variable env : Environment.

Lemma weigh_fold_keys (a : Ant) (l : list Z) (probs : list (Z * Q)) (den : Q) (k : Z) :
  k ∈ (foldl (weigh fpow env a) (probs, den) l).1.*1
  <-> k ∈ probs.*1 ∨ (k ∈ l ∧ Some k ∉ visited_locations a).
Proof.
  revert probs den. induction l as [|x l IH]; intros probs den; cbn [foldl].
  - cbn. split; [by left|]. intros [?|[?%elem_of_nil _]]; done.
  - destruct (weigh fpow env a (probs, den) x) as [probs1 den1] eqn:Ew.
    rewrite IH. clear IH. unfold weigh in Ew. rewrite elem_of_cons.
    case_decide as Hx.
    + injection Ew as <- <-. split; [intros [?|[? ?]]; eauto|].
      intros [?|[[->|?] ?]]; eauto. done.
    + injection Ew as <- <-. rewrite dict_set_keys. split.
      * intros [[?| ->]|[? ?]]; eauto.
      * intros [?|[[->|?] ?]]; eauto.
Qed.

Lemma select_path_elem (a : Ant) (g g' : rng S) (loc : location) :
  size (visited_locations a) ≠ length (nodes env) ->
  select_path fpow S env a g = Ok (loc, g') ->
  exists x, loc = Some x ∧ x ∈ nodes env ∧ Some x ∉ visited_locations a.
Proof.
  intros Hsz. unfold select_path, get_possible_locations.
  rewrite decide_False by done.
  pose proof (weigh_fold_keys a (nodes env) [] 0%Q) as Hkeys.
  destruct (foldl _ _ _) as [probs den]. cbn [fst] in Hkeys.
  set (probs' := if Qlt_le_dec 0 den
                 then (fun kv : Z * Q => (kv.1, (kv.2 / den)%Q)) <$> probs
                 else probs).
  assert (probs'.*1 = probs.*1) as Hk'.
  { unfold probs'. destruct (Qlt_le_dec 0 den); [|done].
    rewrite <- list_fmap_compose. by apply list_fmap_ext. }
  rewrite Hk'.
  destruct (Qeq_bool _ _).
  - destruct (random_choice S probs.*1 g) as [[x g1]| |] eqn:E; cbn [obind]; [|done..].
    intros [= <- <-]. exists x. split; [done|].
    apply (random_choice_elem S sampler_ok), Hkeys in E as [E|E]; [|done].
    by apply elem_of_nil in E.
  - destruct (np_random_choice_p S probs.*1 probs'.*2 g) as [[x g1]| |] eqn:E;
      cbn [obind]; [|done..].
    intros [= <- <-]. exists x. split; [done|].
    apply (np_random_choice_p_elem S sampler_ok), Hkeys in E as [E|E]; [|done].
    by apply elem_of_nil in E.
Qed.

End AntFacts.

(** ** The loop of [Ant.run] *)

Section AntRun.

Variable fpow : Q -> Q -> Q.
Variable S : Sampler.
Hypothesis sampler_ok : SamplerSpec S.
Variable env : Environment.

Lemma on_tour_size (s : Z) (cities : list Z) (a : Ant) :
  on_tour env s cities a -> size (visited_locations a) = length cities.
Proof.
  intros (_ & Hnd & _ & _ & -> & _). rewrite size_list_to_set, length_fmap; [done|].
  apply NoDup_fmap_2; [apply _|done].
Qed.

Lemma on_tour_visited (s : Z) (cities : list Z) (a : Ant) (x : Z) :
  on_tour env s cities a -> Some x ∈ visited_locations a <-> x ∈ cities.
Proof.
  intros (_ & _ & _ & _ & -> & _). rewrite elem_of_list_to_set, list_elem_of_fmap.
  split; [intros (y & [= ->] & ?); done|eauto].
Qed.

Lemma on_tour_current (s : Z) (cities : list Z) (a : Ant) :
  on_tour env s cities a -> exists c, current_location a = Some c ∧ c ∈ cities.
Proof.
  intros (_ & _ & _ & _ & _ & Hl & _). rewrite fmap_last in Hl.
  destruct (last cities) as [c|] eqn:E; [|done]. injection Hl as <-.
  exists c. split; [done|]. apply last_Some in E as [l' ->].
  apply elem_of_app. right. by left.
Qed.

Lemma on_tour_fresh (s : Z) (a : Ant) :
  s ∈ nodes env -> on_tour env s [s] (fresh_at s a).
Proof.
  intros Hs. split_and!; try done.
  - apply NoDup_singleton.
  - by intros c ->%list_elem_of_singleton.
  - cbn. by rewrite union_empty_r_L.
Qed.

Lemma visit_step (s : Z) (cities : list Z) (a : Ant) (x : Z) :
  on_tour env s cities a -> x ∈ nodes env -> x ∉ cities ->
  on_tour env s (cities ++ [x]) (visit env (Some x) a).1
  ∧ alpha (visit env (Some x) a).1 = alpha a
  ∧ beta (visit env (Some x) a).1 = beta a.
Proof.
  intros Ha Hx Hfresh.
  destruct (on_tour_current s cities a Ha) as (c & Hc & Hcin).
  destruct Ha as (Hhd & Hnd & Hsub & Ht & Hv & Hl & Hd).
  unfold visit. rewrite decide_True by (rewrite Hc; intros [= ->]; done).
  cbn [fst alpha beta]. split; [|done]. unfold on_tour, has_toured.
  cbn [tour visited_locations current_location traveled_distance].
  split_and!.
  - destruct cities; [done|]. done.
  - apply NoDup_app. split_and!; [done| |apply NoDup_singleton].
    intros y Hy ->%list_elem_of_singleton. done.
  - intros y [?| ->%list_elem_of_singleton]%elem_of_app; [by apply Hsub|done].
  - by rewrite Ht, fmap_app.
  - rewrite Hv, fmap_app, list_to_set_app_L. cbn [fmap list_fmap list_to_set].
    by rewrite union_empty_r_L.
  - rewrite fmap_app. cbn [fmap list_fmap]. by rewrite last_snoc.
  - rewrite Hd, fmap_app. cbn [fmap list_fmap]. symmetry.
    by apply path_length_snoc.
Qed.

Lemma visit_all_spec (fuel : nat) :
  forall (s : Z) (cities : list Z) (a : Ant) (g : rng S) (a' : Ant) (g' : rng S),
    on_tour env s cities a ->
    visit_all fpow S fuel env a g = Ok (a', g') ->
    exists cities',
      on_tour env s cities' a'
      ∧ (length (nodes env) <= length cities')%nat
      ∧ alpha a' = alpha a ∧ beta a' = beta a.
Proof.
  induction fuel as [|fuel IH]; intros s cities a g a' g' Ha.
  - cbn [visit_all]. unfold get_possible_locations. case_decide as Hlt; [done|].
    intros [= <- <-]. exists cities. rewrite (on_tour_size s cities a Ha) in Hlt.
    split_and!; [done|lia|done|done].
  - cbn [visit_all]. unfold get_possible_locations. case_decide as Hlt.
    + destruct (select_path fpow S env a g) as [[loc g1]| |] eqn:Esel;
        cbn [obind]; [|done..].
      apply (select_path_elem fpow S sampler_ok) in Esel as (x & -> & Hx & Hfresh);
        [|lia].
      rewrite (on_tour_visited s cities a x Ha) in Hfresh.
      destruct (visit_step s cities a x Ha Hx Hfresh) as (Ha1 & Hal & Hbe).
      cbn [fst snd]. intros Hrec.
      destruct (IH s _ _ _ _ _ Ha1 Hrec) as (cities' & ? & ? & Hal' & Hbe').
      exists cities'. split_and!; [done|done|congruence|congruence].
    + intros [= <- <-]. exists cities. rewrite (on_tour_size s cities a Ha) in Hlt.
      split_and!; [done|lia|done|done].
Qed.

Lemma reset_ready (s : Z) (a : Ant) :
  ant_ready env s a -> reset_if_used a = Ok (fresh_at s a).
Proof.
  intros (_ & Hhd & Hstate). unfold reset_if_used. case_decide as Hsz.
  - unfold tour_0. destruct (tour a) as [|x t]; [done|]. injection Hhd as ->. done.
  - destruct Hstate as [?|Hf]; [done|]. by rewrite <- Hf.
Qed.

End AntRun.

Section AntTours.

Variable fpow : Q -> Q -> Q.
Variable S : Sampler.
Hypothesis sampler_ok : SamplerSpec S.
Variable env : Environment.

(** What a successful [run] returns and leaves behind. *)
Lemma run_spec (fuel : nat) (s : Z) (a : Ant) (g : rng S)
    (t : list location) (d : num) (a' : Ant) (g' : rng S) :
  ant_ready env s a ->
  run fpow S fuel env a g = Ok ((t, d), a', g') ->
  exists cities,
    has_toured env s cities d a'
    ∧ t = Some <$> cities
    ∧ (length (nodes env) <= length cities)%nat
    ∧ alpha a' = alpha a ∧ beta a' = beta a
    ∧ d = if decide (cities = [s]) then Fin 0 else closed_length env t.
Proof.
  intros Ha. pose proof Ha as (Hs & _ & _). unfold run.
  rewrite (reset_ready env s a Ha). cbn [obind].
  destruct (visit_all fpow S fuel env (fresh_at s a) g) as [[b g1]| |] eqn:Eloop;
    cbn [obind]; [|done..].
  destruct (visit_all_spec fpow S sampler_ok env fuel s [s] _ _ _ _
              (on_tour_fresh env s a Hs) Eloop)
    as (cities & Hb & Hlen & Hal & Hbe).
  destruct (on_tour_current env s cities b Hb) as (c & Hc & Hcin).
  pose proof Hb as (Hhd & Hnd & Hsub & Ht & Hv & Hl & Hd).
  assert (last cities = Some c) as Hlast.
  { rewrite fmap_last, Hc in Hl. by destruct (last cities); simplify_eq/=. }
  unfold close_tour, tour_0. cbn [fst snd]. rewrite Ht.
  destruct cities as [|s' rest]; [done|]. injection Hhd as ->.
  cbn [fmap list_fmap obind].
  change (list_fmap Z (option Z) Some rest) with (Some <$> rest).
  case_decide as Hcs; cbn [obind].
  - intros [= <- <- <- <-].
    cbn [tour traveled_distance alpha beta].
    exists (s :: rest). split_and!; try done.
    rewrite decide_False.
    + rewrite Hd. unfold closed_length. cbn [fmap list_fmap].
      change (list_fmap Z (option Z) Some rest) with (Some <$> rest).
      cbn [fmap list_fmap] in Hl.
      change (list_fmap Z (option Z) Some rest) with (Some <$> rest) in Hl.
      rewrite Hl. done.
    + intros [= ->]. cbn in Hl. congruence.
  - intros [= <- <- <- <-].
    assert (rest = []) as ->.
    { destruct rest as [|x rest]; [done|]. exfalso.
      rewrite Hc in Hcs. injection Hcs as ->.
      change (last (s :: x :: rest)) with (last (x :: rest)) in Hlast.
      apply NoDup_cons in Hnd as [Hni _]. apply Hni.
      apply last_Some in Hlast as [l' ->]. apply elem_of_app. right. by left. }
    exists [s]. split_and!; try done. by rewrite decide_True.
Qed.

(** After a successful [run] the ant is ready for the next one, from the
    same start. *)
Lemma run_ready (fuel : nat) (s : Z) (a : Ant) (g : rng S)
    (r : list location * num) (a' : Ant) (g' : rng S) :
  ant_ready env s a ->
  run fpow S fuel env a g = Ok (r, a', g') ->
  ant_ready env s a' ∧ alpha a' = alpha a ∧ beta a' = beta a.
Proof.
  intros Ha Hrun. destruct r as [t d].
  destruct (run_spec fuel s a g t d a' g' Ha Hrun)
    as (cities & Hto & -> & Hlen & Hal & Hbe & Hd).
  split; [|done]. pose proof Ha as (Hs & _ & _).
  pose proof Hto as (Hhd & Hnd & Hsub & Ht & Hv & Hl & Hdist).
  split_and!; [done| |].
  - rewrite Ht. destruct cities; [done|]. injection Hhd as ->. done.
  - destruct cities as [|s' [|x rest]]; [done| |].
    + injection Hhd as ->. right. rewrite decide_True in Hd by done.
      destruct a'. cbn in *. unfold fresh_at. cbn.
      rewrite union_empty_r_L in Hv. injection Hl as <-. congruence.
    + left. rewrite Hv, size_list_to_set; [cbn; lia|].
      apply NoDup_fmap_2; [apply _|done].
Qed.

(** *** The weights and the draw *)

Lemma weigh_fold_fresh (a : Ant) (l : list Z) (probs : list (Z * Q)) (den : Q) :
  NoDup l -> (forall k, k ∈ l -> k ∉ probs.*1) ->
  foldl (weigh fpow env a) (probs, den) l
  = (probs ++ ((fun x => (x, weight_of fpow env a x))
                 <$> filter (fun x => Some x ∉ visited_locations a) l),
     foldl Qplus den
       (weight_of fpow env a <$> filter (fun x => Some x ∉ visited_locations a) l)).
Proof.
  revert probs den. induction l as [|x l IH]; intros probs den Hnd Hfresh.
  - cbn. by rewrite app_nil_r.
  - apply NoDup_cons in Hnd as [Hx Hnd]. cbn [foldl]. rewrite filter_cons.
    unfold weigh at 2. destruct (decide (Some x ∈ visited_locations a)) as [Hv|Hv].
    + rewrite decide_False by (intros H; by apply H).
      apply IH; [done|]. intros k Hk. apply Hfresh. by right.
    + rewrite decide_True by done.
      rewrite dict_set_fresh by (apply Hfresh; by left).
      fold (weight_of fpow env a x). rewrite IH; [|done|].
      * cbn [fmap list_fmap foldl]. by rewrite <- app_assoc.
      * intros k Hk. rewrite fmap_app, elem_of_app. cbn.
        intros [?| ->%list_elem_of_singleton]; [|done].
        eapply Hfresh; [by right|done].
Qed.

Lemma Qsum_scale {A} (f : A -> Q) (c : Q) (l : list A) :
  (0 < c)%Q ->
  (Qsum ((fun x => f x / c) <$> l) == Qsum (f <$> l) / c)%Q.
Proof.
  intros Hc. induction l as [|x l IH].
  - cbn. field. lra.
  - cbn [fmap list_fmap]. rewrite !Qsum_cons, IH. field. lra.
Qed.

Hypothesis fpow_nonneg : forall x y, (0 <= x -> 0 <= fpow x y)%Q.
Hypothesis trails_nonneg : nonneg_map (pheromone_map env).

Lemma heuristic_of_nonneg (d : num) : (0 <= heuristic_of d)%Q.
Proof.
  unfold heuristic_of. destruct (num_ltb (Fin 0) d) eqn:E; [|lra].
  by destruct (one_over_pos d E).
Qed.

Lemma weight_of_nonneg (a : Ant) (x : Z) : (0 <= weight_of fpow env a x)%Q.
Proof.
  unfold weight_of. apply Qmult_le_0_compat.
  - apply fpow_nonneg. unfold get_pheromone_map.
    destruct (edge _ _) as [k|]; cbn; [|lra].
    destruct (pheromone_map env !! k) as [v|] eqn:E; cbn; [|lra].
    by apply trails_nonneg in E.
  - apply fpow_nonneg, heuristic_of_nonneg.
Qed.

Lemma select_path_draws (s : Z) (cities : list Z) (a : Ant) (g : rng S) :
  NoDup (nodes env) ->
  on_tour env s cities a ->
  (length cities < length (nodes env))%nat ->
  exists loc g', select_path fpow S env a g = Ok (loc, g').
Proof.
  intros Hnd Ha Hlt. unfold select_path, get_possible_locations.
  rewrite decide_False by (rewrite (on_tour_size env s cities a Ha); lia).
  rewrite (weigh_fold_fresh a (nodes env) [] 0%Q Hnd)
    by (intros k _ H; by apply elem_of_nil in H).
  set (cand := filter (fun x => Some x ∉ visited_locations a) (nodes env)).
  fold (Qsum (weight_of fpow env a <$> cand)).
  set (den := Qsum (weight_of fpow env a <$> cand)).
  cbn [app].
  assert (cand ≠ []) as Hcand.
  { intros Hnil.
    assert (nodes env ⊆+ cities) as Hsub.
    { apply NoDup_submseteq; [done|]. intros x Hx.
      destruct (decide (x ∈ cities)) as [|Hn]; [done|]. exfalso.
      assert (x ∈ cand) as Hc.
      { apply list_elem_of_filter. split; [|done].
        by rewrite (on_tour_visited env s cities a x Ha). }
      rewrite Hnil in Hc. by apply elem_of_nil in Hc. }
    apply submseteq_length in Hsub. lia. }
  assert (0 <= den)%Q as Hden.
  { apply Qsum_nonneg, Forall_fmap, Forall_forall. intros x _.
    apply weight_of_nonneg. }
  destruct (Qlt_le_dec 0 den) as [Hpos|Hle].
  - rewrite <- !list_fmap_compose.
    assert (Qsum ((fun x => weight_of fpow env a x / den)%Q <$> cand) == 1)%Q as Hone.
    { rewrite Qsum_scale by done. fold den. field. lra. }
    change (Qsum (snd ∘ _ ∘ _ <$> cand))
      with (Qsum ((fun x => weight_of fpow env a x / den)%Q <$> cand)).
    destruct (Qeq_bool _ 0) eqn:Eq0.
    { apply Qeq_bool_iff in Eq0. rewrite Hone in Eq0. lra. }
    destruct (np_random_choice_p_draws S sampler_ok
                (fst ∘ (fun kv : Z * Q => (kv.1, (kv.2 / den)%Q))
                     ∘ (fun x => (x, weight_of fpow env a x)) <$> cand)
                (snd ∘ (fun kv : Z * Q => (kv.1, (kv.2 / den)%Q))
                     ∘ (fun x => (x, weight_of fpow env a x)) <$> cand) g)
      as (x & g' & ->).
    + by destruct cand.
    + by rewrite !length_fmap.
    + apply Forall_fmap, Forall_forall. intros x _. cbn.
      apply Qle_shift_div_l; [done|]. pose proof (weight_of_nonneg a x). lra.
    + exact Hone.
    + cbn [obind]. eauto.
  - assert (den == 0)%Q as Hz by lra.
    rewrite <- !list_fmap_compose.
    change (Qsum (snd ∘ _ <$> cand)) with den.
    apply Qeq_bool_iff in Hz. rewrite Hz.
    destruct (random_choice_draws S sampler_ok
                (fst ∘ (fun x => (x, weight_of fpow env a x)) <$> cand) g)
      as (x & g' & ->); [by destruct cand|].
    cbn [obind]. eauto.
Qed.

Lemma visit_all_total (fuel : nat) :
  forall (s : Z) (cities : list Z) (a : Ant) (g : rng S),
    NoDup (nodes env) ->
    on_tour env s cities a ->
    (length (nodes env) - length cities <= fuel)%nat ->
    exists a' g', visit_all fpow S fuel env a g = Ok (a', g').
Proof.
  induction fuel as [|fuel IH]; intros s cities a g Hnd Ha Hfuel.
  - cbn [visit_all]. unfold get_possible_locations.
    rewrite decide_False by (rewrite (on_tour_size env s cities a Ha); lia). eauto.
  - cbn [visit_all]. unfold get_possible_locations. case_decide as Hlt; [|eauto].
    rewrite (on_tour_size env s cities a Ha) in Hlt.
    destruct (select_path_draws s cities a g Hnd Ha Hlt) as (loc & g1 & Esel).
    rewrite Esel. cbn [obind fst snd].
    apply (select_path_elem fpow S sampler_ok) in Esel as (x & -> & Hx & Hfresh);
      [|rewrite (on_tour_size env s cities a Ha); lia].
    rewrite (on_tour_visited env s cities a x Ha) in Hfresh.
    destruct (visit_step env s cities a x Ha Hx Hfresh) as (Ha1 & _).
    apply (IH s (cities ++ [x])); [done|done|]. rewrite length_app. cbn. lia.
Qed.

Lemma run_total (fuel : nat) (s : Z) (a : Ant) (g : rng S) :
  NoDup (nodes env) ->
  ant_ready env s a ->
  (length (nodes env) <= fuel)%nat ->
  exists r, run fpow S fuel env a g = Ok r.
Proof.
  intros Hnd Ha Hfuel. pose proof Ha as (Hs & _ & _). unfold run.
  rewrite (reset_ready env s a Ha). cbn [obind].
  destruct (visit_all_total fuel s [s] (fresh_at s a) g Hnd
              (on_tour_fresh env s a Hs)) as (b & g1 & Eloop); [cbn; lia|].
  rewrite Eloop. cbn [obind fst snd].
  destruct (visit_all_spec fpow S sampler_ok env fuel s [s] _ _ _ _
              (on_tour_fresh env s a Hs) Eloop) as (cities & Hb & _).
  destruct Hb as (Hhd & _ & _ & Ht & _).
  unfold close_tour, tour_0. rewrite Ht. destruct cities; [done|].
  cbn [fmap list_fmap obind]. case_decide; cbn [obind]; eauto.
Qed.

End AntTours.

(** ** Claims about the tour constructor *)

(** C1. On an instance of [n >= 2] different cities, from an ant that is
    fresh at a city or has been used, every tour [Ant.run] returns is a
    permutation of the cities (each city exactly once, length [n]) and
    the distance returned is the sum of the distances between consecutive
    cities plus the closing edge from the last city back to the first.
    With non-negative trails and a power that keeps non-negative numbers
    non-negative, [run] does return once the loop is given [n] rounds. *)
Theorem run_returns_closed_tour (fpow : Q -> Q -> Q) (S : Sampler)
    (env : Environment) (fuel : nat) (s : Z) (a : Ant) (g : rng S) :
  SamplerSpec S ->
  NoDup (nodes env) ->
  (2 <= length (nodes env))%nat ->
  ant_ready env s a ->
  (forall (t : list location) (d : num) (a' : Ant) (g' : rng S),
     run fpow S fuel env a g = Ok ((t, d), a', g') ->
     exists cities : list Z,
       t = Some <$> cities
       ∧ cities ≡ₚ nodes env
       ∧ NoDup t
       ∧ length t = length (nodes env)
       ∧ d = closed_length env t)
  ∧ ((forall x y, 0 <= x -> 0 <= fpow x y)%Q ->
     nonneg_map (pheromone_map env) ->
     (length (nodes env) <= fuel)%nat ->
     exists r, run fpow S fuel env a g = Ok r).
Proof.
  intros HS Hnd Hn Ha. split.
  - intros t d a' g' Hrun.
    destruct (run_spec fpow S HS env fuel s a g t d a' g' Ha Hrun)
      as (cities & Hto & -> & Hlen & _ & _ & Hd).
    destruct Hto as (Hhd & Hndc & Hsub & _).
    assert (cities ≡ₚ nodes env) as Hperm.
    { apply submseteq_length_Permutation; [|done]. by apply NoDup_submseteq. }
    exists cities. split_and!; [done|done| | |].
    + apply NoDup_fmap_2; [apply _|done].
    + by rewrite length_fmap, Hperm.
    + rewrite decide_False in Hd; [done|]. intros ->. cbn in Hlen. lia.
  - intros Hpow Htr Hfuel. by apply (run_total fpow S HS env Hpow Htr fuel s).
Qed.

Lemma run_returns_closed_tour_witness :
  (forall (t : list location) (d : num) (a' : Ant) (g' : rng round_robin),
     run int_pow round_robin 2 two_cities (fresh_at 1 (Ant_init 1 5 None)) 0%nat
       = Ok ((t, d), a', g') ->
     exists cities : list Z,
       t = Some <$> cities
       ∧ cities ≡ₚ nodes two_cities
       ∧ NoDup t
       ∧ length t = length (nodes two_cities)
       ∧ d = closed_length two_cities t)
  ∧ ((forall x y, 0 <= x -> 0 <= int_pow x y)%Q ->
     nonneg_map (pheromone_map two_cities) ->
     (length (nodes two_cities) <= 2)%nat ->
     exists r, run int_pow round_robin 2 two_cities
                 (fresh_at 1 (Ant_init 1 5 None)) 0%nat = Ok r).
Proof.
  apply (run_returns_closed_tour int_pow round_robin two_cities 2 1
           (fresh_at 1 (Ant_init 1 5 None)) 0%nat).
  - exact round_robin_spec.
  - cbn. repeat (constructor; [rewrite list_elem_of_In; cbn; lia|]). constructor.
  - cbn. lia.
  - split_and!; [apply list_elem_of_In; cbn; lia|reflexivity|by right].
Defined.

(** The run of the example: the ant starting in city 1 returns [1; 2]
    and the length 4 of the closed tour. *)
Example run_two_cities :
  exists a' g',
    run int_pow round_robin 2 two_cities (fresh_at 1 (Ant_init 1 5 None)) 0%nat
    = Ok ((there_and_back, Fin 4), a', g').
Proof. eexists _, _. by vm_compute. Qed.

(** An ant that was never placed still holds [None], the location
    [AntColony.__init__] creates it with; [solve] places every ant before
    the first [run], which is what [ant_ready] asks for.  Run as created,
    the ant would count [None] as its first location. *)
Example run_unplaced_ant :
  exists a' g',
    run int_pow round_robin 2 two_cities (Ant_init 1 5 None) 0%nat
    = Ok (([None; Some 1], Inf), a', g').
Proof. eexists _, _. by vm_compute. Qed.

(** ** The colony loop *)

Lemma ant_ready_nodes (env env' : Environment) (s : Z) (a : Ant) :
  nodes env' = nodes env -> ant_ready env s a -> ant_ready env' s a.
Proof. intros H (? & ? & ?). split_and!; [by rewrite H|done|done]. Qed.

Lemma ant_ready_start (env : Environment) (s s' : Z) (a : Ant) :
  ant_ready env s a -> ant_ready env s' a -> s = s'.
Proof. intros (_ & H & _) (_ & H' & _). congruence. Qed.

Lemma ant_ready_fresh (env : Environment) (s : Z) (a : Ant) :
  s ∈ nodes env -> ant_ready env s (fresh_at s a).
Proof. intros Hs. split_and!; [done|done|by right]. Qed.

Lemma update_pheromone_map_nodes (env : Environment)
    (tours : list (list location)) (lengths : list num) :
  nodes (update_pheromone_map env tours lengths).1 = nodes env.
Proof.
  unfold update_pheromone_map. by destruct (for_each_in_place _ _ _).
Qed.

Section ColonyFacts.

Variable fpow : Q -> Q -> Q.
Variable S : Sampler.
Hypothesis sampler_ok : SamplerSpec S.

Lemma place_ants_fresh (ns : list Z) (todo : list Ant) (g : rng S)
    (placed : list Ant) (g' : rng S) :
  place_ants S ns todo g = Ok (placed, g') ->
  Forall2 (fun a0 a => exists s, s ∈ ns ∧ a = fresh_at s a0) todo placed.
Proof.
  revert g placed g'. induction todo as [|a0 todo IH]; intros g placed g'.
  - cbn. intros [= <- _]. constructor.
  - cbn [place_ants].
    destruct (np_random_choice S ns g) as [[s g1]| |] eqn:E; cbn [obind fst snd];
      [|done..].
    destruct (place_ants S ns todo g1) as [[rest g2]| |] eqn:E2; cbn [obind]; [|done..].
    intros [= <- <-]. constructor; [|by eapply IH].
    exists s. split; [|done]. by eapply (np_random_choice_elem S sampler_ok).
Qed.

Lemma place_ants_total (ns : list Z) (todo : list Ant) (g : rng S) :
  ns ≠ [] -> exists placed g', place_ants S ns todo g = Ok (placed, g').
Proof.
  intros Hns. revert g. induction todo as [|a0 todo IH]; intros g; [by eexists _, _|].
  cbn [place_ants].
  destruct (np_random_choice_draws S sampler_ok ns g Hns) as (s & g1 & ->).
  cbn [obind fst snd]. destruct (IH g1) as (rest & g2 & ->). cbn [obind].
  by eexists _, _.
Qed.

Lemma run_ants_same_start (fuel : nat) (env : Environment) (todo : list Ant)
    (pr : progress) (g : rng S) (finished : list Ant) (pr' : progress) (g' : rng S) :
  Forall (fun a => exists s, ant_ready env s a) todo ->
  run_ants fpow S fuel env todo pr g = Ok (finished, pr', g') ->
  Forall2 (same_start env) todo finished.
Proof.
  revert pr g finished pr' g'.
  induction todo as [|a todo IH]; intros pr g finished pr' g' Hready.
  - cbn. intros [= <- _ _]. constructor.
  - apply Forall_cons in Hready as [[s Ha] Hready]. cbn [run_ants].
    destruct (run fpow S fuel env a g) as [[[[t d] a'] g1]| |] eqn:Erun;
      cbn [obind]; [|done..].
    destruct (run_ants fpow S fuel env todo _ g1) as [[[rest pr1] g2]| |] eqn:Erest;
      cbn [obind]; [|done..].
    intros [= <- _ _]. constructor; [|by eapply IH].
    destruct (run_ready fpow S sampler_ok env fuel s a g (t, d) a' g1 Ha Erun)
      as (Ha' & ? & ?).
    by exists s.
Qed.

Lemma same_start_trans (env env' : Environment) (l1 l2 l3 : list Ant) :
  nodes env' = nodes env ->
  Forall2 (same_start env) l1 l2 -> Forall2 (same_start env') l2 l3 ->
  Forall2 (same_start env) l1 l3.
Proof.
  intros Hn H12. revert l3. induction H12 as [|a b l1 l2 Hab _ IH]; intros l3 H23.
  - inversion H23. constructor.
  - inversion H23 as [|? c ? l3' Hbc Hrest]; subst. constructor; [|by apply IH].
    destruct Hab as (s & Ha & Hb & ? & ?), Hbc as (s' & Hb' & Hc & ? & ?).
    apply (ant_ready_nodes env' env _ _ (eq_sym Hn)) in Hb'.
    apply (ant_ready_nodes env' env _ _ (eq_sym Hn)) in Hc.
    assert (s' = s) as -> by exact (ant_ready_start env s' s b Hb' Hb).
    exists s. split_and!; [done|done|congruence|congruence].
Qed.

Lemma iterate_same_start (k fuel : nat) :
  forall (env : Environment) (colony : list Ant) (best : list location * num)
         (g : rng S) (env' : Environment) (colony' : list Ant)
         (best' : list location * num) (g' : rng S),
    Forall (fun a => exists s, ant_ready env s a) colony ->
    iterate fpow S k fuel env colony best g = Ok (env', colony', best', g') ->
    nodes env' = nodes env ∧ Forall2 (same_start env) colony colony'.
Proof.
  induction k as [|k IH]; intros env colony best g env' colony' best' g' Hready.
  - cbn. intros [= <- <- _ _]. split; [done|].
    induction Hready as [|a l [s Ha] _ IHl]; constructor; [|done].
    by exists s.
  - cbn [iterate].
    destruct (run_ants fpow S fuel env colony _ g) as [[[colony1 pr] g1]| |] eqn:Erun;
      cbn [obind]; [|done..].
    pose proof (run_ants_same_start _ _ _ _ _ _ _ _ Hready Erun) as H1.
    pose proof (update_pheromone_map_nodes env (ant_tours pr) (ant_distances pr)) as Hn.
    destruct (update_pheromone_map env (ant_tours pr) (ant_distances pr))
      as [env1 ended]. cbn [fst] in Hn.
    destruct ended as [[]| |]; cbn [obind]; [|done..].
    intros Hrec. apply IH in Hrec as [Hn' H2].
    + split; [congruence|]. by eapply same_start_trans.
    + clear -H1 Hn. induction H1 as [|a b l1 l2 (s & _ & Hb & _) _ IHl];
        constructor; [|done].
      exists s. by apply (ant_ready_nodes env env1 _ _ Hn).
Qed.

End ColonyFacts.

(** C9. Inside one [solve], the start each ant is given by the
    randomization before the iteration loop stays its [tour[0]] after any
    number of iterations, and the reset block at the head of the next
    [run] returns the ant to exactly the state that randomization gave it
    (current location, visited set and tour reduced to the start, distance
    0): a new construction never depends on the previous one. *)
Theorem starts_fixed_across_iterations (fpow : Q -> Q -> Q) (S : Sampler)
    (env : Environment) (ants0 : list Ant) (g0 : rng S)
    (colony : list Ant) (g : rng S) (k fuel : nat) (best : list location * num)
    (env' : Environment) (colony' : list Ant) (best' : list location * num)
    (g' : rng S) :
  SamplerSpec S ->
  place_ants S (get_possible_locations env) ants0 g0 = Ok (colony, g) ->
  iterate fpow S k fuel env colony best g = Ok (env', colony', best', g') ->
  Forall2 (fun a a' =>
             exists s : Z,
               s ∈ nodes env
               ∧ a = fresh_at s a
               ∧ tour_0 a' = Ok (Some s)
               ∧ reset_if_used a' = Ok a
               ∧ forall (fuel1 : nat) (env1 : Environment) (g1 : rng S),
                   run fpow S fuel1 env1 a' g1 = run fpow S fuel1 env1 a g1)
          colony colony'.
Proof.
  intros HS Hplace Hiter. apply (place_ants_fresh S HS) in Hplace.
  assert (Forall (fun a => exists s, s ∈ nodes env ∧ a = fresh_at s a) colony) as Hfresh.
  { clear -Hplace. unfold get_possible_locations in Hplace.
    induction Hplace as [|a0 a l1 l2 (s & Hs & ->) _ IH]; constructor; [|done].
    by exists s. }
  apply (iterate_same_start fpow S HS) in Hiter as [_ Hss].
  - clear -Hss Hfresh.
    induction Hss as [|a a' l1 l2 (s & Ha & Ha' & Hal & Hbe) _ IH]; [constructor|].
    apply Forall_cons in Hfresh as [(s0 & Hs0 & Hf) Hfresh].
    constructor; [|by apply IH].
    assert (s0 = s) as ->.
    { destruct Ha as (_ & Hhd & _). rewrite Hf in Hhd. cbn in Hhd. congruence. }
    assert (reset_if_used a' = Ok a) as Hreset.
    { rewrite (reset_ready env s a' Ha'). unfold fresh_at. rewrite Hal, Hbe.
      by rewrite Hf at 3. }
    assert (reset_if_used a = Ok a) as Hreset0.
    { rewrite (reset_ready env s a Ha). by rewrite <- Hf. }
    exists s. split_and!; [done|done| |done|].
    + destruct Ha' as (_ & Hhd & _). unfold tour_0.
      destruct (tour a') as [|x t]; [done|]. by injection Hhd as ->.
    + intros fuel1 env1 g1. unfold run. by rewrite Hreset, Hreset0.
  - eapply Forall_impl; [exact Hfresh|]. intros a (s & Hs & ->).
    exists s. by apply ant_ready_fresh.
Qed.

Lemma starts_fixed_across_iterations_witness :
  exists (colony : list Ant) (g : nat) (env' : Environment) (colony' : list Ant)
         (best' : list location * num) (g' : nat),
    place_ants round_robin (get_possible_locations two_cities)
      (replicate 2 (Ant_init 1 5 None)) 0%nat = Ok (colony, g)
    ∧ iterate int_pow round_robin 2 2 two_cities colony ([], Inf) g
      = Ok (env', colony', best', g')
    ∧ Forall2 (fun a a' =>
                 exists s : Z,
                   s ∈ nodes two_cities
                   ∧ a = fresh_at s a
                   ∧ tour_0 a' = Ok (Some s)
                   ∧ reset_if_used a' = Ok a
                   ∧ forall (fuel1 : nat) (env1 : Environment) (g1 : rng round_robin),
                       run int_pow round_robin fuel1 env1 a' g1
                       = run int_pow round_robin fuel1 env1 a g1)
              colony colony'.
Proof.
  destruct (place_ants round_robin (get_possible_locations two_cities)
              (replicate 2 (Ant_init 1 5 None)) 0%nat) as [[colony g]| |] eqn:E1;
    [|vm_compute in E1; discriminate..].
  destruct (iterate int_pow round_robin 2 2 two_cities colony ([], Inf) g)
    as [[[[env' colony'] best'] g']| |] eqn:E2.
  - exists colony, g, env', colony', best', g'. split; [done|]. split; [done|].
    exact (starts_fixed_across_iterations int_pow round_robin two_cities
             (replicate 2 (Ant_init 1 5 None)) 0%nat colony g 2 2 ([], Inf)
             env' colony' best' g' round_robin_spec E1 E2).
  - exfalso. vm_compute in E1. injection E1 as <- <-. vm_compute in E2. discriminate.
  - exfalso. vm_compute in E1. injection E1 as <- <-. vm_compute in E2. discriminate.
Defined.

(** ** Configuration *)

Lemma nn_loop_ext (env env' : Environment) (fuel : nat) :
  distances env = distances env' ->
  forall cur unv acc, nn_loop fuel env cur unv acc = nn_loop fuel env' cur unv acc.
Proof.
  intros Hd. induction fuel as [|fuel IH]; intros cur unv acc; [done|].
  destruct unv as [|u unv]; [done|]. cbn [nn_loop].
  unfold distances_get. rewrite Hd.
  destruct (py_min _ _) as [x| |]; cbn [obind]; [|done..].
  destruct (getitem _ _) as [d| |]; cbn [obind]; [|done..].
  destruct (set_remove _ _) as [unv'| |]; cbn [obind]; [|done..].
  apply IH.
Qed.

Lemma nn_tour_length_ext (set_iter : list Z -> list Z) (env env' : Environment) :
  nodes env = nodes env' -> distances env = distances env' ->
  nn_tour_length set_iter env = nn_tour_length set_iter env'.
Proof.
  intros Hn Hd. unfold nn_tour_length. rewrite Hn, Hd.
  destruct (nodes env') as [|start ?]; [done|]. cbn [obind].
  destruct (set_remove _ _) as [unv| |]; cbn [obind]; [|done..].
  by rewrite (nn_loop_ext env env').
Qed.

Lemma iterate_none (fpow : Q -> Q -> Q) (S : Sampler) (iters : Z) (fuel : nat)
    (env : Environment) (colony : list Ant) (best : list location * num) (g : rng S) :
  iters <= 0 ->
  iterate fpow S (Z.to_nat iters) fuel env colony best g = Ok (env, colony, best, g).
Proof. intros H. by replace (Z.to_nat iters) with 0%nat by lia. Qed.

(** C3, as the code has it.  Nothing validates the configuration: if the
    instance lets an environment be constructed at all, [AntColony.__init__]
    succeeds for every population size, iteration count, alpha, beta and
    rho, and stores them as given, alpha and beta also in every ant; a
    population that is not positive gives a colony without ants; with an
    iteration count that is not positive
    [solve] runs no iteration and returns the empty tour with distance
    [inf]; a distance lookup with an unknown city answers [inf]. *)
Theorem configuration_not_validated (fsqrt : Q -> Q) (set_iter : list Z -> list Z)
    (fpow : Q -> Q -> Q) (S : Sampler) (p : problem) (rho1 : Q) (env1 : Environment)
    (population iters : Z) (alpha0 beta0 rho0 : Q) :
  SamplerSpec S ->
  Environment_init fsqrt set_iter rho1 p = Ok env1 ->
  exists c : AntColony,
    AntColony_init fsqrt set_iter population iters alpha0 beta0 rho0 p = Ok c
    ∧ ant_population c = population
    ∧ iterations c = iters
    ∧ colony_alpha c = alpha0
    ∧ colony_beta c = beta0
    ∧ colony_rho c = rho0 ∧ rho (environment c) = rho0
    ∧ length (ants c) = Z.to_nat population
    ∧ Forall (fun a => alpha a = alpha0 ∧ beta a = beta0) (ants c)
    ∧ (population <= 0 -> ants c = [])
    ∧ (iters <= 0 ->
       forall (fuel : nat) (g : rng S),
       exists (c' : AntColony) (g' : rng S),
         solve fpow S fuel c g = Ok (([], Inf), c', g'))
    ∧ (forall x y : Z,
         x ∉ get_nodes p ∨ y ∉ get_nodes p ->
         get_distance (environment c) (Some x) (Some y) = Inf).
Proof.
  intros HS Hinit. unfold AntColony_init.
  assert (exists env, Environment_init fsqrt set_iter rho0 p = Ok env
                      ∧ get_nodes p ≠ []) as (env & Henv & Hne).
  { revert Hinit. unfold Environment_init. rewrite compute_distances_ok.
    cbn [obind]. unfold initialize_pheromone_map.
    set (e1 := {| rho := rho1; nodes := get_nodes p;
                  coordinates := load_coordinates p (get_nodes p);
                  distances := distance_table fsqrt p; pheromone_map := ∅ |}).
    set (e0 := {| rho := rho0; nodes := get_nodes p;
                  coordinates := load_coordinates p (get_nodes p);
                  distances := distance_table fsqrt p; pheromone_map := ∅ |}).
    rewrite (nn_tour_length_ext set_iter e0 e1) by done.
    destruct (nn_tour_length set_iter e1) as [L| |] eqn:EL; cbn [obind]; [|done..].
    destruct (one_over _) as [v| |]; cbn [obind]; [|done..].
    intros _. eexists. split; [done|].
    intros Hnil. unfold nn_tour_length in EL. cbn [nodes e1] in EL.
    by rewrite Hnil in EL. }
  rewrite Henv. cbn [obind]. eexists. split; [done|].
  cbn [ant_population iterations colony_alpha colony_beta colony_rho
       environment ants].
  destruct (Environment_init_fields fsqrt set_iter rho0 p env Henv)
    as (Hrho & Hnodes & _ & Hdist).
  split_and!; [done|done|done|done|done|done|by rewrite length_replicate| | | |].
  - by apply Forall_replicate.
  - intros Hpop. by replace (Z.to_nat population) with 0%nat by lia.
  - intros Hit fuel g. unfold solve.
    cbn [ant_population iterations colony_alpha colony_beta colony_rho
         environment ants].
    destruct (place_ants_total S HS (get_possible_locations env)
                (replicate (Z.to_nat population) (Ant_init alpha0 beta0 None)) g)
      as (placed & g1 & ->).
    { unfold get_possible_locations. by rewrite Hnodes. }
    cbn [obind fst snd]. rewrite iterate_none by done. cbn [obind].
    by eexists _, _.
  - intros x y Hxy. unfold get_distance. cbn [edge mbind option_bind].
    rewrite Hdist, distance_table_lookup, decide_False; [done|].
    intros (? & ? & _). by destruct Hxy.
Qed.

Lemma configuration_not_validated_witness :
  exists c : AntColony,
    AntColony_init dyadic_sqrt (fun l => l) (-3) (-1) (-1) (-5) 2 unit_square = Ok c
    ∧ ant_population c = -3
    ∧ iterations c = -1
    ∧ colony_alpha c = (-1)%Q
    ∧ colony_beta c = (-5)%Q
    ∧ colony_rho c = 2%Q ∧ rho (environment c) = 2%Q
    ∧ length (ants c) = Z.to_nat (-3)
    ∧ Forall (fun a => alpha a = (-1)%Q ∧ beta a = (-5)%Q) (ants c)
    ∧ (-3 <= 0 -> ants c = [])
    ∧ (-1 <= 0 ->
       forall (fuel : nat) (g : rng round_robin),
       exists (c' : AntColony) (g' : rng round_robin),
         solve int_pow round_robin fuel c g = Ok (([], Inf), c', g'))
    ∧ (forall x y : Z,
         x ∉ get_nodes unit_square ∨ y ∉ get_nodes unit_square ->
         get_distance (environment c) (Some x) (Some y) = Inf).
Proof.
  destruct (Environment_init dyadic_sqrt (fun l => l) (1 # 2) unit_square)
    as [env1| |] eqn:E; [|vm_compute in E; discriminate..].
  exact (configuration_not_validated dyadic_sqrt (fun l => l) int_pow round_robin
           unit_square (1 # 2) env1 (-3) (-1) (-1) (-5) 2 round_robin_spec E).
Defined.

(** C3 as stated fails: a negative population, a negative iteration count
    and [rho = 2] are accepted, [solve] returns the empty tour with
    distance [inf] instead of raising, and the lookup of the unknown city
    99 answers [inf]. *)
Lemma invalid_configuration_accepted_counterexample :
  exists c : AntColony,
    AntColony_init dyadic_sqrt (fun l => l) (-3) (-1) 1 5 2 unit_square = Ok c
    ∧ ants c = []
    ∧ solve int_pow round_robin 10 c 0%nat = Ok (([], Inf), c, 0%nat)
    ∧ get_distance (environment c) (Some 1) (Some 99) = Inf.
Proof. eexists. split_and!; vm_compute; reflexivity. Qed.

Lemma pheromone_nonneg_invariant_witness :
  (exists env : Environment,
     Environment_init dyadic_sqrt (fun l => l) (1 # 2) unit_square = Ok env
     ∧ nonneg_map (pheromone_map env))
  ∧ nonneg_map
      (pheromone_map (update_pheromone_map two_cities [there_and_back] [Fin 4]).1).
Proof.
  destruct pheromone_nonneg_invariant as [Hinit Hupdate]. split.
  - destruct (Environment_init dyadic_sqrt (fun l => l) (1 # 2) unit_square)
      as [env| |] eqn:E; [|vm_compute in E; discriminate..].
    exists env. split; [done|].
    exact (Hinit dyadic_sqrt (fun l => l) (1 # 2) unit_square env
             dyadic_sqrt_nonneg E).
  - apply Hupdate.
    + unfold two_cities. cbn [pheromone_map].
      apply map_Forall_insert_2; [lra|]. apply map_Forall_singleton. lra.
    + cbn. lra.
    + repeat constructor.
Defined.
